(** * Turtle's Adventure: the simulation core of [turtle_adventure.py]

    A shallow embedding of the game's entities (waypoint, home, player, the
    four enemies, the enemy generator and the game object) and of their
    [update] methods, followed by the properties the design document states
    about them.

    Numbers.  Python's [int] and [float] coordinates are embedded as real
    numbers ([R]): the properties below are about the geometry of the game,
    and [math.sqrt], [math.cos], [math.sin] and [math.atan2] are the
    functions of the same name on [R].  The screen dimensions are Python
    [int]s that the source divides with [//]; they are embedded as [Z] and
    injected with [IZR] where the source compares them with coordinates.

    Objects.  Every Python object reachable from the game is a field of
    [Game]; a method that mutates [self] or the game returns the new value.
*)

From Stdlib Require Import Reals Lra Lia ZArith List Bool String.
Import ListNotations.

Open Scope R_scope.

(** ** Comparisons and [math] functions *)

Module PyMath.

(** Python's [a < b] and [a <= b] on numbers, as booleans. *)
Definition Rltb (a b : R) : bool := if Rlt_dec a b then true else false.
Definition Rleb (a b : R) : bool := if Rle_dec a b then true else false.

(** [math.atan2(y, x)]: the angle of the vector [(x, y)], in [(-pi, pi]];
    [math.atan2(0, 0)] is [0]. *)
Definition atan2 (y x : R) : R :=
  if Rlt_dec 0 x then atan (y / x)
  else if Rlt_dec x 0 then
         if Rle_dec 0 y then atan (y / x) + PI else atan (y / x) - PI
  else if Rlt_dec 0 y then PI / 2
  else if Rlt_dec y 0 then - (PI / 2)
  else 0.

(** [math.sqrt(dx ** 2 + dy ** 2)]. *)
Definition hypot (dx dy : R) : R := sqrt (dx ^ 2 + dy ^ 2).

End PyMath.
Export PyMath.

Infix "<?" := Rltb (at level 70, no associativity) : R_scope.
Infix "<=?" := Rleb (at level 70, no associativity) : R_scope.

(** ** Outcome of a call that may raise *)

Inductive outcome (A : Type) : Type :=
| Returned (a : A)
| Raised (exn : string).
Arguments Returned {A} a.
Arguments Raised {A} exn.

Definition bind {A B : Type} (m : outcome A) (k : A -> outcome B) : outcome B :=
  match m with
  | Returned a => k a
  | Raised e => Raised e
  end.

Notation "x <- m ;; k" := (bind m (fun x => k))
  (at level 61, m at next level, right associativity).

(** ** Data model *)

(** The two terminal signals: [game_over_win] and [game_over_lose]. *)
Inductive Signal : Type := Win | Lose.

(** [class Waypoint]: position and the [__active] flag. *)
Record Waypoint : Type := mkWaypoint {
  wp_x : R;
  wp_y : R;
  is_active : bool
}.

(** [class Home]: position and [__size]. *)
Record Home : Type := mkHome {
  home_x : R;
  home_y : R;
  home_size : R
}.

(** The [RawTurtle] a player delegates its position to.  The turtle library
    is Python's own; the three facts of its documentation the game relies on
    are embedded: the position ([xcor], [ycor]), the heading and the motion
    along the heading.  The heading is kept in radians: the unit [towards]
    returns is the unit [setheading] takes.  The library rounds the angle
    [towards] returns to ten decimals of a degree; like all rounding of
    floats this is outside the embedding, so a statement below that turns
    on a comparison is exact for the real numbers and can differ from the
    library where the two sides of the comparison are equal. *)
Record Turtle : Type := mkTurtle {
  xcor : R;
  ycor : R;
  heading : R
}.

(** [class Player]: [__speed] and [__turtle]. *)
Record Player : Type := mkPlayer {
  speed : R;
  turtle : Turtle
}.

(** [class Enemy]: position, [__size] and [__color]. *)
Record EnemyBase : Type := mkEnemyBase {
  e_x : R;
  e_y : R;
  size : R;
  color : string
}.

(** [class ChasingEnemy]. *)
Record ChasingEnemy : Type := mkChasing {
  ce_base : EnemyBase
}.

(** [class FencingEnemy]: [__step], the home position read at construction,
    [__side_length] and the four corners [__home_corner]. *)
Record FencingEnemy : Type := mkFencing {
  fe_base : EnemyBase;
  fe_step : Z;
  fe_home_x : R;
  fe_home_y : R;
  fe_side_length : R;
  fe_home_corner : list (R * R)
}.

(** [class RandomEnemy]: [__angle]. *)
Record RandomEnemy : Type := mkRandom {
  re_base : EnemyBase;
  re_angle : R
}.

(** [class FrontGateEnermy]: [__angle]. *)
Record FrontGateEnermy : Type := mkFrontGate {
  fg_base : EnemyBase;
  fg_angle : R
}.

Inductive Enemy : Type :=
| EChasing (e : ChasingEnemy)
| EFencing (e : FencingEnemy)
| ERandom (e : RandomEnemy)
| EFrontGate (e : FrontGateEnermy).

(** An entry of the game's element collection.  The waypoint, the home and
    the player are the very objects the game's attributes of the same name
    point to, so the entry only names them; an enemy is referenced from the
    collection alone. *)
Inductive Element : Type :=
| ElWaypoint
| ElHome
| ElPlayer
| ElEnemy (e : Enemy).

(** [class EnemyGenerator]: [__level], [__screen_width], [__screen_height]. *)
Record EnemyGenerator : Type := mkGenerator {
  gen_level : Z;
  gen_screen_width : Z;
  gen_screen_height : Z
}.

(** A delayed call registered with [after]. *)
Inductive Callback : Type :=
| CreateEnemy (gen : EnemyGenerator).

(** [class TurtleAdventureGame].  [elements], [is_running] and [pending]
    belong to the [Game] base class; [signals] records the banners
    [game_over_win] and [game_over_lose] have drawn, oldest first. *)
Record Game : Type := mkGame {
  level : Z;
  screen_width : Z;
  screen_height : Z;
  waypoint : Waypoint;
  player : option Player;
  home : Home;
  enemies : list Enemy;
  enemy_generator : option EnemyGenerator;
  elements : list Element;
  is_running : bool;
  pending : list Callback;
  signals : list Signal
}.

Definition set_waypoint (w : Waypoint) (g : Game) : Game :=
  mkGame (level g) (screen_width g) (screen_height g) w (player g) (home g)
         (enemies g) (enemy_generator g) (elements g) (is_running g)
         (pending g) (signals g).

Definition set_player (p : Player) (g : Game) : Game :=
  mkGame (level g) (screen_width g) (screen_height g) (waypoint g) (Some p)
         (home g) (enemies g) (enemy_generator g) (elements g) (is_running g)
         (pending g) (signals g).

Definition set_enemies (l : list Enemy) (g : Game) : Game :=
  mkGame (level g) (screen_width g) (screen_height g) (waypoint g) (player g)
         (home g) l (enemy_generator g) (elements g) (is_running g)
         (pending g) (signals g).

Definition set_elements (l : list Element) (g : Game) : Game :=
  mkGame (level g) (screen_width g) (screen_height g) (waypoint g) (player g)
         (home g) (enemies g) (enemy_generator g) l (is_running g)
         (pending g) (signals g).

Definition set_pending (l : list Callback) (g : Game) : Game :=
  mkGame (level g) (screen_width g) (screen_height g) (waypoint g) (player g)
         (home g) (enemies g) (enemy_generator g) (elements g) (is_running g)
         l (signals g).

(** Modelled from the spec: [Game.stop] of [gamelib], which is not among the
    sources.  The session halts its own tick scheduling, and ending the
    session cancels the spawn triggers that are still pending, so that no
    spawn occurs after termination. *)
Definition stop (g : Game) : Game :=
  mkGame (level g) (screen_width g) (screen_height g) (waypoint g) (player g)
         (home g) (enemies g) (enemy_generator g) (elements g) false
         [] (signals g).

Definition emit (s : Signal) (g : Game) : Game :=
  mkGame (level g) (screen_width g) (screen_height g) (waypoint g) (player g)
         (home g) (enemies g) (enemy_generator g) (elements g) (is_running g)
         (pending g) (signals g ++ [s]).

(** Modelled from the spec: [Game.add_element] of [gamelib], which is not
    among the sources.  The element joins the session's insertion-ordered
    entity collection. *)
Definition add_element (el : Element) (g : Game) : Game :=
  set_elements (elements g ++ [el]) g.

(** [game_over_win]: stop the game and draw the "You Win" banner. *)
Definition game_over_win (g : Game) : Game := emit Win (stop g).

(** [game_over_lose]: stop the game and draw the "You Lose" banner. *)
Definition game_over_lose (g : Game) : Game := emit Lose (stop g).

(** ** Waypoint *)

Definition Waypoint_init : Waypoint := mkWaypoint 0 0 false.

Definition activate (x y : R) (w : Waypoint) : Waypoint := mkWaypoint x y true.

Definition deactivate (w : Waypoint) : Waypoint :=
  mkWaypoint (wp_x w) (wp_y w) false.

(** ** Home *)

Definition Home_init (pos : R * R) (sz : R) : Home :=
  let '(x, y) := pos in mkHome x y sz.

(** [Home.contains]: [x1 <= x <= x2 and y1 <= y <= y2]. *)
Definition contains (h : Home) (x y : R) : bool :=
  let x1 := home_x h - home_size h / 2 in
  let x2 := home_x h + home_size h / 2 in
  let y1 := home_y h - home_size h / 2 in
  let y2 := home_y h + home_size h / 2 in
  ((x1 <=? x) && (x <=? x2)) && ((y1 <=? y) && (y <=? y2)).

(** ** Turtle *)

(** [turtle.towards(x, y)]: the angle of the line from the turtle to [(x, y)]. *)
Definition towards (t : Turtle) (x y : R) : R :=
  atan2 (y - ycor t) (x - xcor t).

Definition setheading (to_angle : R) (t : Turtle) : Turtle :=
  mkTurtle (xcor t) (ycor t) to_angle.

(** [turtle.forward(d)]: move by [d] in the direction the turtle is headed. *)
Definition forward (d : R) (t : Turtle) : Turtle :=
  mkTurtle (xcor t + d * cos (heading t)) (ycor t + d * sin (heading t))
           (heading t).

(** [turtle.distance(x, y)]. *)
Definition distance (t : Turtle) (x y : R) : R :=
  hypot (x - xcor t) (y - ycor t).

Definition setx (x : R) (t : Turtle) : Turtle := mkTurtle x (ycor t) (heading t).
Definition sety (y : R) (t : Turtle) : Turtle := mkTurtle (xcor t) y (heading t).

(** ** Player *)

(** [Player.__init__]: stores [speed] as given. *)
Definition Player_init (t : Turtle) (spd : R) : outcome Player :=
  Returned (mkPlayer spd t).

(** The [x] and [y] properties of the player read the turtle. *)
Definition Player_x (p : Player) : R := xcor (turtle p).
Definition Player_y (p : Player) : R := ycor (turtle p).

Definition Player_set_x (x : R) (p : Player) : Player :=
  mkPlayer (speed p) (setx x (turtle p)).
Definition Player_set_y (y : R) (p : Player) : Player :=
  mkPlayer (speed p) (sety y (turtle p)).

(** [Player.update].  The arrival test is followed by the waypoint branch
    whatever its result: the source has no [return] after [game_over_win]. *)
Definition Player_update (p : Player) (g : Game) : Game :=
  let g1 := if contains (home g) (Player_x p) (Player_y p)
            then game_over_win g else g in
  let wp := waypoint g1 in
  if is_active wp then
    let t1 := setheading (towards (turtle p) (wp_x wp) (wp_y wp)) (turtle p) in
    let t2 := forward (speed p) t1 in
    let g2 := set_player (mkPlayer (speed p) t2) g1 in
    if distance t2 (wp_x wp) (wp_y wp) <? speed p
    then set_waypoint (deactivate wp) g2
    else g2
  else g1.

(** ** Enemies *)

(** [Enemy.__init__]: stores [size] and [color] as given.  The position
    attributes come from [GameElement]; every enemy the program creates has
    them assigned before its first update. *)
Definition Enemy_init (sz : R) (col : string) : outcome EnemyBase :=
  Returned (mkEnemyBase 0 0 sz col).

Definition move_to (x y : R) (b : EnemyBase) : EnemyBase :=
  mkEnemyBase x y (size b) (color b).

(** [Enemy.hits_player]: both chained comparisons are strict. *)
Definition hits_player (b : EnemyBase) (p : Player) : bool :=
  ((e_x b - size b / 2 <? Player_x p) && (Player_x p <? e_x b + size b / 2))
  &&
  ((e_y b - size b / 2 <? Player_y p) && (Player_y p <? e_y b + size b / 2)).

(** *** ChasingEnemy *)

Definition ChasingEnemy_init (g : Game) (sz : R) (col : string)
  : outcome ChasingEnemy :=
  b <- Enemy_init sz col ;;
  Returned (mkChasing b).

Definition ChasingEnemy_update (e : ChasingEnemy) (g : Game)
  : ChasingEnemy * Game :=
  match player g with
  | Some p =>
      let b := ce_base e in
      let player_x := Player_x p in
      let player_y := Player_y p in
      let dist := sqrt ((player_x - e_x b) ^ 2 + (player_y - e_y b) ^ 2) in
      if dist <? size b then (e, game_over_lose g)
      else
        let angle := atan2 (player_y - e_y b) (player_x - e_x b) in
        let spd := 3 in
        (mkChasing (move_to (e_x b + spd * cos angle)
                            (e_y b + spd * sin angle) b), g)
  | None => (e, g)
  end.

(** *** FencingEnemy *)

(** The list assigned to [__home_corner]. *)
Definition patrol_corners (hx hy : R) : list (R * R) :=
  let cn := 100 / 2 in
  [(hx - cn, hy - cn); (hx + cn, hy - cn);
   (hx + cn, hy + cn); (hx - cn, hy + cn)].

Definition FencingEnemy_init (g : Game) (sz : R) (col : string)
  : outcome FencingEnemy :=
  b <- Enemy_init sz col ;;
  let hx := home_x (home g) in
  let hy := home_y (home g) in
  Returned (mkFencing b 0%Z hx hy 100 (patrol_corners hx hy)).

(** [self.__home_corner[i]]; the list has its four entries from construction
    on, so the default is never returned for [i < 4]. *)
Definition corner (e : FencingEnemy) (i : nat) : R * R :=
  nth i (fe_home_corner e) (0, 0).

Definition fe_with (b : EnemyBase) (st : Z) (e : FencingEnemy) : FencingEnemy :=
  mkFencing b st (fe_home_x e) (fe_home_y e) (fe_side_length e)
            (fe_home_corner e).

Definition FencingEnemy_update (e : FencingEnemy) (g : Game)
  : FencingEnemy * Game :=
  match player g with
  | Some p =>
      let b := fe_base e in
      if hits_player b p then (e, game_over_lose g)
      else
        let spd := 2 in
        if (fe_step e =? 0)%Z then
          let x := e_x b + spd in
          let b' := move_to x (e_y b) b in
          if fst (corner e 1) <=? x
          then (fe_with b' (fe_step e + 1) e, g) else (fe_with b' (fe_step e) e, g)
        else if (fe_step e =? 1)%Z then
          let y := e_y b + spd in
          let b' := move_to (e_x b) y b in
          if snd (corner e 2) <=? y
          then (fe_with b' (fe_step e + 1) e, g) else (fe_with b' (fe_step e) e, g)
        else if (fe_step e =? 2)%Z then
          let x := e_x b - spd in
          let b' := move_to x (e_y b) b in
          if x <=? fst (corner e 3)
          then (fe_with b' (fe_step e + 1) e, g) else (fe_with b' (fe_step e) e, g)
        else if (fe_step e =? 3)%Z then
          let y := e_y b - spd in
          let b' := move_to (e_x b) y b in
          if y <=? snd (corner e 0)
          then (fe_with b' 0%Z e, g) else (fe_with b' (fe_step e) e, g)
        else (e, g)
  | None => (e, g)
  end.

(** *** RandomEnemy *)

Definition RandomEnemy_init (g : Game) (sz : R) (col : string)
  : outcome RandomEnemy :=
  b <- Enemy_init sz col ;;
  Returned (mkRandom b 45).

Definition RandomEnemy_update (e : RandomEnemy) (g : Game)
  : RandomEnemy * Game :=
  match player g with
  | Some p =>
      let b := re_base e in
      if hits_player b p then (e, game_over_lose g)
      else
        let spd := 3 in
        let x := e_x b + spd * cos (re_angle e) in
        let y := e_y b + spd * sin (re_angle e) in
        let sw := IZR (screen_width g) in
        let sh := IZR (screen_height g) in
        let a1 := if (x <? 0) || (sw <? x) then PI - re_angle e
                  else re_angle e in
        let a2 := if (y <? 0) || (sh <? y) then - a1 else a1 in
        (mkRandom (move_to x y b) a2, g)
  | None => (e, g)
  end.

(** *** FrontGateEnermy *)

Definition FrontGateEnermy_init (g : Game) (sz : R) (col : string)
  : outcome FrontGateEnermy :=
  b <- Enemy_init sz col ;;
  Returned (mkFrontGate b 45).

(** The bounds are computed on Python [int]s with floor division ([//]). *)
Definition FrontGateEnermy_update (e : FrontGateEnermy) (g : Game)
  : FrontGateEnermy * Game :=
  match player g with
  | Some p =>
      let b := fg_base e in
      if hits_player b p then (e, game_over_lose g)
      else
        let spd := 3 in
        let x := e_x b + spd * cos (fg_angle e) in
        let y := e_y b + spd * sin (fg_angle e) in
        let sw := screen_width g in
        let sh := screen_height g in
        let a1 := if (x <? IZR (sw - sw / 4)) || (IZR sw <? x)
                  then PI - fg_angle e else fg_angle e in
        let a2 := if (y <? IZR (sh / 3)) || (IZR (sh - sh / 3) <? y)
                  then - a1 else a1 in
        (mkFrontGate (move_to x y b) a2, g)
  | None => (e, g)
  end.

(** Dispatch of [update] on the enemy's class. *)
Definition Enemy_update (e : Enemy) (g : Game) : Enemy * Game :=
  match e with
  | EChasing c => let '(c', g') := ChasingEnemy_update c g in (EChasing c', g')
  | EFencing f => let '(f', g') := FencingEnemy_update f g in (EFencing f', g')
  | ERandom r => let '(r', g') := RandomEnemy_update r g in (ERandom r', g')
  | EFrontGate f =>
      let '(f', g') := FrontGateEnermy_update f g in (EFrontGate f', g')
  end.

Definition Enemy_base (e : Enemy) : EnemyBase :=
  match e with
  | EChasing c => ce_base c
  | EFencing f => fe_base f
  | ERandom r => re_base r
  | EFrontGate f => fg_base f
  end.

(** The classes whose [update] starts with [hits_player]: all but the
    chasing enemy. *)
Definition uses_hits_player (e : Enemy) : bool :=
  match e with
  | EChasing _ => false
  | _ => true
  end.

(** ** EnemyGenerator *)

(** [EnemyGenerator.__init__]: keeps the level and the screen size and
    registers [create_enemy] with [after]. *)
Definition EnemyGenerator_init (g : Game) (lvl w h : Z) : EnemyGenerator * Game :=
  let gen := mkGenerator lvl w h in
  (gen, set_pending (pending g ++ [CreateEnemy gen]) g).

(** [EnemyGenerator.create_enemy]: one enemy of each class, placed and then
    handed to [add_element]. *)
Definition create_enemy (gen : EnemyGenerator) (g : Game) : outcome Game :=
  random_enemy <- RandomEnemy_init g 20 "red" ;;
  chasing_enemy <- ChasingEnemy_init g 20 "blue" ;;
  fencing_enemy <- FencingEnemy_init g 20 "orange" ;;
  front_gate_enemy <- FrontGateEnermy_init g 20 "pink" ;;
  let random_enemy :=
    mkRandom (move_to 100 100 (re_base random_enemy)) (re_angle random_enemy) in
  let chasing_enemy := mkChasing (move_to 200 200 (ce_base chasing_enemy)) in
  let fencing_enemy :=
    fe_with (move_to (IZR (gen_screen_width gen - 150))
                     (IZR (gen_screen_height gen / 2 - 50))
                     (fe_base fencing_enemy))
            (fe_step fencing_enemy) fencing_enemy in
  let front_gate_enemy :=
    mkFrontGate (move_to (IZR (gen_screen_width gen - 100))
                         (IZR (gen_screen_height gen / 2))
                         (fg_base front_gate_enemy))
                (fg_angle front_gate_enemy) in
  let g := add_element (ElEnemy (ERandom random_enemy)) g in
  let g := add_element (ElEnemy (EChasing chasing_enemy)) g in
  let g := add_element (ElEnemy (EFencing fencing_enemy)) g in
  let g := add_element (ElEnemy (EFrontGate front_gate_enemy)) g in
  Returned g.

(** ** TurtleAdventureGame *)

(** [TurtleAdventureGame.add_enemy].  No call of it occurs in the program. *)
Definition add_enemy (e : Enemy) (g : Game) : Game :=
  add_element (ElEnemy e) (set_enemies (enemies g ++ [e]) g).

(** [TurtleAdventureGame.__init__] followed by [init_game]: the attributes
    are set, the waypoint, the home and the player are created and added in
    this order, the generator is created, and the player is placed.  The
    fresh turtle stands at the origin with heading [0]. *)
Definition new_game (w h lvl : Z) : outcome Game :=
  let wp := Waypoint_init in
  let hm := Home_init (IZR (w - 100), IZR (h / 2)) 20 in
  pl <- Player_init (mkTurtle 0 0 0) 5 ;;
  let g := mkGame lvl w h wp None hm [] None [] true [] [] in
  let g := add_element ElWaypoint g in
  let g := add_element ElHome g in
  let g := add_element ElPlayer (set_player pl g) in
  let '(gen, g) := EnemyGenerator_init g lvl w h in
  let g := mkGame (level g) (screen_width g) (screen_height g) (waypoint g)
                  (player g) (home g) (enemies g) (Some gen) (elements g)
                  (is_running g) (pending g) (signals g) in
  let pl := Player_set_y (IZR (h / 2)) (Player_set_x 50 pl) in
  Returned (set_player pl g).

(** The click handler bound in [init_game]. *)
Definition on_click (x y : R) (g : Game) : Game :=
  set_waypoint (activate x y (waypoint g)) g.

(** [update] of one entry of the element collection.  [Waypoint.update] and
    [Home.update] do nothing. *)
Definition Element_update (el : Element) (g : Game) : Element * Game :=
  match el with
  | ElWaypoint => (el, g)
  | ElHome => (el, g)
  | ElPlayer =>
      match player g with
      | Some p => (el, Player_update p g)
      | None => (el, g)
      end
  | ElEnemy e => let '(e', g') := Enemy_update e g in (ElEnemy e', g')
  end.

(** Modelled from the spec: the per-tick advance of [gamelib]'s [Game], which
    is not among the sources.  The elements are updated in collection order;
    once a terminal signal has stopped the session no further element is
    processed, and a stopped session does not advance. *)
Fixpoint update_all (els : list Element) (g : Game) : list Element * Game :=
  match els with
  | [] => ([], g)
  | el :: rest =>
      if is_running g then
        let '(el', g') := Element_update el g in
        let '(rest', g'') := update_all rest g' in
        (el' :: rest', g'')
      else (els, g)
  end.

Definition advance_tick (g : Game) : Game :=
  if is_running g then
    let '(els, g') := update_all (elements g) g in set_elements els g'
  else g.

Fixpoint ticks (n : nat) (g : Game) : Game :=
  match n with
  | O => g
  | S k => ticks k (advance_tick g)
  end.

(** ** Transitions of the running program *)

(** What the running program does to a session: the host loop advances it by
    one tick, a click activates the waypoint, and a delayed call registered
    with [after] fires.  [add_enemy] has no caller, so no transition runs
    it. *)
Inductive step : Game -> Game -> Prop :=
| step_tick (g : Game) :
    step g (advance_tick g)
| step_click (g : Game) (x y : R) :
    step g (on_click x y g)
| step_timer (g g' : Game) (gen : EnemyGenerator) (before after : list Callback) :
    pending g = before ++ CreateEnemy gen :: after ->
    create_enemy gen (set_pending (before ++ after) g) = Returned g' ->
    step g g'.

Inductive reachable : Game -> Prop :=
| reach_new (w h lvl : Z) (g : Game) :
    new_game w h lvl = Returned g -> reachable g
| reach_step (g g' : Game) :
    reachable g -> step g g' -> reachable g'.

(** The enemy after one update in each game of a list, in turn. *)
Fixpoint fencing_run (gs : list Game) (e : FencingEnemy) : FencingEnemy :=
  match gs with
  | [] => e
  | g :: rest => fencing_run rest (fst (FencingEnemy_update e g))
  end.

(** ** The rules of the design document, where they differ from the code *)

(** The angle the gate guard would have after its move if the bounds were
    [screen_width - screen_width / 4], [screen_height / 3] and
    [screen_height - screen_height / 3] with the division of real numbers,
    as the design document writes them. *)
Definition gate_angle_real_division (sw sh : Z) (x y a : R) : R :=
  let a1 := if (x <? IZR sw - IZR sw / 4) || (IZR sw <? x) then PI - a else a in
  if (y <? IZR sh / 3) || (IZR sh - IZR sh / 3 <? y) then - a1 else a1.

(** ** Concrete sessions and entities *)

(** The session [TurtleAdventureGame(parent, 800, 600)] right after
    [init_game]: home at (700, 300) of size 20, the player at (50, 300) with
    speed 5, the waypoint inactive, no enemy yet. *)
Definition arena : Game :=
  mkGame 1 800 600 Waypoint_init
         (Some (mkPlayer 5 (mkTurtle 50 300 0)))
         (mkHome 700 300 20) [] (Some (mkGenerator 1 800 600))
         [ElWaypoint; ElHome; ElPlayer] true
         [CreateEnemy (mkGenerator 1 800 600)] [].

(** The session of the scenario: [arena] with the waypoint activated at
    (700, 300), the centre of home. *)
Definition scenario : Game := on_click 700 300 arena.

(** The same session with the player at [(x, 300)]. *)
Definition walking (x : R) : Game :=
  set_player (mkPlayer 5 (mkTurtle x 300 0)) scenario.

(** The session after the update that found the player at (690, 300). *)
Definition arrived : Game :=
  set_player (mkPlayer 5 (mkTurtle 695 300 0)) (game_over_win (walking 690)).

(** The player has reached the centre of home while a waypoint further east
    is still active. *)
Definition arrived_player : Player := mkPlayer 5 (mkTurtle 700 300 0).
Definition arrived_game : Game :=
  set_player arrived_player (on_click 800 300 arena).

(** The player stands at the origin, the waypoint is 7 units to the east. *)
Definition near_player : Player := mkPlayer 5 (mkTurtle 0 0 0).
Definition near_game : Game := set_player near_player (on_click 7 0 arena).

(** The session [arena] with the player at (205, 205). *)
Definition chased_game : Game :=
  set_player (mkPlayer 5 (mkTurtle 205 205 0)) arena.

(** A screen of 800 by 500 and a player far from the enemies below. *)
Definition gate_game : Game :=
  mkGame 1 800 500 Waypoint_init
         (Some (mkPlayer 5 (mkTurtle 50 250 0)))
         (mkHome 700 250 20) [] (Some (mkGenerator 1 800 500))
         [ElWaypoint; ElHome; ElPlayer] true [] [].

(** A random enemy just right of the screen, heading east. *)
Definition stray_enemy : RandomEnemy := mkRandom (mkEnemyBase 801 100 20 "red") 0.

(** A random enemy just right of and just below the screen, heading east. *)
Definition low_enemy : RandomEnemy := mkRandom (mkEnemyBase 801 501 20 "red") 0.

(** A gate guard heading straight down, 2.5 units above y = 166. *)
Definition gate_enemy : FrontGateEnermy :=
  mkFrontGate (mkEnemyBase 700 (327 / 2) 20 "pink") (PI / 2).

(** The session [arena] after a click, the spawn of the four enemies and a
    tick. *)
Definition spawned : Game :=
  match create_enemy (mkGenerator 1 800 600) (set_pending [] (on_click 400 300 arena)) with
  | Returned g => advance_tick g
  | Raised _ => arena
  end.

(** ** Repeated updates *)

(** The updates of a list of elements run one after the other on a session,
    as a caller that walks the element collection runs them. *)
Fixpoint run_elements (els : list Element) (g : Game) : Game :=
  match els with
  | [] => g
  | el :: rest => run_elements rest (snd (Element_update el g))
  end.

(** [n] updates of a chasing enemy in a session that stays as it is. *)
Fixpoint chasing_run (n : nat) (e : ChasingEnemy) (g : Game) : ChasingEnemy :=
  match n with
  | O => e
  | S k => chasing_run k (fst (ChasingEnemy_update e g)) g
  end.

(** The random enemy after one update in each game of a list, in turn. *)
Fixpoint random_run (gs : list Game) (e : RandomEnemy) : RandomEnemy :=
  match gs with
  | [] => e
  | g :: rest => random_run rest (fst (RandomEnemy_update e g))
  end.

(** The gate guard after one update in each game of a list, in turn. *)
Fixpoint gate_run (gs : list Game) (e : FrontGateEnermy) : FrontGateEnermy :=
  match gs with
  | [] => e
  | g :: rest => gate_run rest (fst (FrontGateEnermy_update e g))
  end.

(** The class of an entry of the element collection. *)
Inductive Kind : Type :=
| KWaypoint | KHome | KPlayer | KChasing | KFencing | KRandom | KFrontGate.

Definition Element_kind (el : Element) : Kind :=
  match el with
  | ElWaypoint => KWaypoint
  | ElHome => KHome
  | ElPlayer => KPlayer
  | ElEnemy (EChasing _) => KChasing
  | ElEnemy (EFencing _) => KFencing
  | ElEnemy (ERandom _) => KRandom
  | ElEnemy (EFrontGate _) => KFrontGate
  end.

(** Where a fencing enemy that starts on the top left corner of the patrol
    square around [(hx, hy)] stands after [n < 200] updates without a hit,
    and the phase it is in: 50 steps of 2 along each side. *)
Definition patrol_state (hx hy : R) (n : nat) : R * R * Z :=
  if (n <? 50)%nat then (hx - 50 + 2 * INR n, hy - 50, 0%Z)
  else if (n <? 100)%nat then (hx + 50, hy - 50 + 2 * INR (n - 50), 1%Z)
  else if (n <? 150)%nat then (hx + 50 - 2 * INR (n - 100), hy + 50, 2%Z)
  else (hx - 50, hy + 50 - 2 * INR (n - 150), 3%Z).

(** The fencing enemy of size [sz] in the state [patrol_state hx hy n]. *)
Definition patrol_enemy (hx hy sz : R) (col : string) (n : nat) : FencingEnemy :=
  let '(x, y, st) := patrol_state hx hy n in
  mkFencing (mkEnemyBase x y sz col) st hx hy 100 (patrol_corners hx hy).

(** The index that follows [n] on the loop of 200 steps. *)
Definition patrol_next (n : nat) : nat :=
  if (S n =? 200)%nat then 0%nat else S n.

(** The player is nowhere the box of a fencing enemy of size [sz] passes
    over on its way along the patrol square around [(hx, hy)]: it is within
    the square by at least [sz / 2], or beyond one of its sides by at least
    [sz / 2]. *)
Definition clear_of_patrol (hx hy sz : R) (p : Player) : Prop :=
  (hx - 50 + sz / 2 <= Player_x p <= hx + 50 - sz / 2 /\
   hy - 50 + sz / 2 <= Player_y p <= hy + 50 - sz / 2) \/
  Player_x p <= hx - 50 - sz / 2 \/ hx + 50 + sz / 2 <= Player_x p \/
  Player_y p <= hy - 50 - sz / 2 \/ hy + 50 + sz / 2 <= Player_y p.

(** ** Predicates on a coordinate and the velocity component along it *)

(** The coordinate [v] is within [[lo, hi]], or the next step of [3 * c]
    takes it there. *)
Definition near_range (lo hi v c : R) : Prop :=
  lo <= v <= hi \/ lo <= v + 3 * c <= hi.

(** The coordinate [v] is above [hi] and stays there with the next step. *)
Definition stuck_above (hi v c : R) : Prop := hi < v /\ hi < v + 3 * c.

(** The coordinate [v] is below [lo] and stays there with the next step. *)
Definition stuck_below (lo v c : R) : Prop := v < lo /\ v + 3 * c < lo.

(** * Properties *)

(** ** Comparisons *)

Lemma Rltb_true (a b : R) : (a <? b) = true <-> a < b.
Proof. unfold Rltb; destruct (Rlt_dec a b); split; intros; auto; discriminate. Qed.

Lemma Rltb_false (a b : R) : (a <? b) = false <-> b <= a.
Proof.
  unfold Rltb; destruct (Rlt_dec a b); split; intros; auto; try discriminate; lra.
Qed.

Lemma Rleb_true (a b : R) : (a <=? b) = true <-> a <= b.
Proof. unfold Rleb; destruct (Rle_dec a b); split; intros; auto; discriminate. Qed.

Lemma Rleb_false (a b : R) : (a <=? b) = false <-> b < a.
Proof.
  unfold Rleb; destruct (Rle_dec a b); split; intros; auto; try discriminate; lra.
Qed.

(** ** [atan2], [cos] and [sin] *)

Lemma atan2_east (x : R) : 0 < x -> atan2 0 x = 0.
Proof.
  intros Hx. unfold atan2. destruct (Rlt_dec 0 x) as [_ | N]; [ | contradiction ].
  replace (0 / x) with 0 by (field; lra). apply atan_0.
Qed.

Lemma atan2_origin : atan2 0 0 = 0.
Proof.
  unfold atan2. destruct (Rlt_dec 0 0) as [H | _]; [ lra | ].
  reflexivity.
Qed.

Lemma sqrt_sum_sqr_pos (x y : R) : x <> 0 \/ y <> 0 -> 0 < sqrt (x ^ 2 + y ^ 2).
Proof.
  intros H. apply sqrt_lt_R0.
  destruct H as [H | H].
  - pose proof (Rsqr_pos_lt x H) as Hp. unfold Rsqr in Hp. nra.
  - pose proof (Rsqr_pos_lt y H) as Hp. unfold Rsqr in Hp. nra.
Qed.

Lemma sqrt_sum_sqr_sq (x y : R) : sqrt (x ^ 2 + y ^ 2) * sqrt (x ^ 2 + y ^ 2) = x ^ 2 + y ^ 2.
Proof. apply sqrt_sqrt. nra. Qed.

(** The denominator [sin_atan] and [cos_atan] produce, for the slope [y / x]. *)
Lemma sqrt_slope (x y : R) :
  x <> 0 -> sqrt (1 + (y / x)²) = sqrt (x ^ 2 + y ^ 2) / Rabs x.
Proof.
  intros Hx.
  assert (Ha : 0 < Rabs x) by (apply Rabs_pos_lt; exact Hx).
  replace (1 + (y / x)²) with ((x ^ 2 + y ^ 2) / (Rabs x)²).
  - rewrite sqrt_div_alt.
    + rewrite sqrt_Rsqr by lra. reflexivity.
    + unfold Rsqr. nra.
  - rewrite <- Rsqr_abs. unfold Rsqr. field. exact Hx.
Qed.

(** Away from the origin [atan2 y x] is the angle whose cosine and sine are
    the coordinates of the unit vector along [(x, y)]. *)
Lemma cos_sin_atan2 (x y : R) :
  x <> 0 \/ y <> 0 ->
  cos (atan2 y x) = x / sqrt (x ^ 2 + y ^ 2) /\
  sin (atan2 y x) = y / sqrt (x ^ 2 + y ^ 2).
Proof.
  intros Hxy.
  pose proof (sqrt_sum_sqr_pos x y Hxy) as Hd.
  unfold atan2.
  destruct (Rlt_dec 0 x) as [Hx | Hx].
  - rewrite cos_atan, sin_atan, sqrt_slope by lra.
    rewrite Rabs_right by lra. split; field; lra.
  - destruct (Rlt_dec x 0) as [Hx' | Hx'].
    + assert (Hab : Rabs x = - x) by (apply Rabs_left; exact Hx').
      destruct (Rle_dec 0 y) as [Hy | Hy].
      * rewrite neg_cos, neg_sin, cos_atan, sin_atan, sqrt_slope by lra.
        rewrite Hab. split; field; lra.
      * replace (atan (y / x) - PI) with (- (PI - atan (y / x))) by ring.
        rewrite cos_neg, sin_neg.
        replace (PI - atan (y / x)) with (- atan (y / x) + PI) by ring.
        rewrite neg_cos, neg_sin, cos_neg, sin_neg.
        rewrite cos_atan, sin_atan, sqrt_slope by lra.
        rewrite Hab. split; field; lra.
    + assert (x = 0) by lra. subst x.
      assert (Hy0 : y <> 0) by (destruct Hxy; [ lra | assumption ]).
      replace (0 ^ 2 + y ^ 2) with (y ^ 2) in * by ring.
      destruct (Rlt_dec 0 y) as [Hy | Hy].
      * rewrite cos_PI2, sin_PI2, sqrt_pow2 by lra. split; field; lra.
      * destruct (Rlt_dec y 0) as [Hy' | Hy']; [ | lra ].
        rewrite cos_neg, sin_neg, cos_PI2, sin_PI2.
        replace (y ^ 2) with ((- y) ^ 2) by ring.
        rewrite sqrt_pow2 by lra. split; field; lra.
Qed.

(** A step of length [d] along any angle has length [|d|]. *)
Lemma step_length (d a : R) : hypot (d * cos a) (d * sin a) = Rabs d.
Proof.
  unfold hypot.
  replace ((d * cos a) ^ 2 + (d * sin a) ^ 2) with (d² * ((sin a)² + (cos a)²))
    by (unfold Rsqr; ring).
  rewrite sin2_cos2, Rmult_1_r. apply sqrt_Rsqr_abs.
Qed.

(** Walking [s] along the angle towards a point at distance [d > 0] leaves
    the point at distance [|d - s|]. *)
Lemma hypot_after_step (dx dy s : R) :
  dx <> 0 \/ dy <> 0 ->
  hypot (dx - s * cos (atan2 dy dx)) (dy - s * sin (atan2 dy dx))
  = Rabs (hypot dx dy - s).
Proof.
  intros Hxy.
  destruct (cos_sin_atan2 dx dy Hxy) as [Hc Hs].
  pose proof (sqrt_sum_sqr_pos dx dy Hxy) as Hd.
  pose proof (sqrt_sum_sqr_sq dx dy) as Hdd.
  rewrite Hc, Hs. unfold hypot.
  set (d := sqrt (dx ^ 2 + dy ^ 2)) in *.
  rewrite <- sqrt_Rsqr_abs. f_equal.
  unfold Rsqr.
  replace ((dx - s * (dx / d)) ^ 2 + (dy - s * (dy / d)) ^ 2)
    with ((dx ^ 2 + dy ^ 2) * ((d - s) * (d - s)) / (d * d)) by (field; lra).
  rewrite <- Hdd. field. lra.
Qed.

(** ** Home and the shared hit test *)

Lemma contains_spec (h : Home) (x y : R) :
  contains h x y = true <->
  (home_x h - home_size h / 2 <= x <= home_x h + home_size h / 2) /\
  (home_y h - home_size h / 2 <= y <= home_y h + home_size h / 2).
Proof.
  unfold contains. rewrite !andb_true_iff, !Rleb_true. tauto.
Qed.

Lemma hits_player_spec (b : EnemyBase) (p : Player) :
  hits_player b p = true <->
  (e_x b - size b / 2 < Player_x p < e_x b + size b / 2) /\
  (e_y b - size b / 2 < Player_y p < e_y b + size b / 2).
Proof.
  unfold hits_player. rewrite !andb_true_iff, !Rltb_true. tauto.
Qed.

(** C5.  For every enemy and every player position, [hits_player] is true
    exactly when the player's point lies strictly inside the square of
    half-width [size / 2] centred on the enemy; a player on the boundary of
    that square (one coordinate on an edge) is not hit; and the fencing, the
    random and the front-gate enemy all end their update with a Lose signal,
    unchanged themselves, when this test succeeds. *)
Theorem hits_player_strictly_inside (e : Enemy) (p : Player) :
  let b := Enemy_base e in
  (hits_player b p = true <->
   (e_x b - size b / 2 < Player_x p < e_x b + size b / 2) /\
   (e_y b - size b / 2 < Player_y p < e_y b + size b / 2))
  /\
  (Player_x p = e_x b - size b / 2 \/ Player_x p = e_x b + size b / 2 \/
   Player_y p = e_y b - size b / 2 \/ Player_y p = e_y b + size b / 2 ->
   hits_player b p = false)
  /\
  (forall g : Game,
     uses_hits_player e = true -> player g = Some p ->
     hits_player b p = true -> Enemy_update e g = (e, game_over_lose g)).
Proof.
  intros b. split; [ apply hits_player_spec | split ].
  - intros Hedge. apply not_true_is_false. intros Hhit.
    apply hits_player_spec in Hhit. fold b in Hhit. lra.
  - intros g Hkind Hp Hhit. subst b.
    destruct e as [c | f | r | f]; simpl in *; try discriminate.
    + unfold FencingEnemy_update. rewrite Hp, Hhit. reflexivity.
    + unfold RandomEnemy_update. rewrite Hp, Hhit. reflexivity.
    + unfold FrontGateEnermy_update. rewrite Hp, Hhit. reflexivity.
Qed.

Lemma hits_player_strictly_inside_witness :
  hits_player (mkEnemyBase 200 200 20 "red") (mkPlayer 5 (mkTurtle 205 205 0)) = true /\
  hits_player (mkEnemyBase 200 200 20 "red") (mkPlayer 5 (mkTurtle 210 205 0)) = false.
Proof.
  pose proof (hits_player_strictly_inside
                (ERandom (mkRandom (mkEnemyBase 200 200 20 "red") 45))) as H.
  split.
  - apply (proj1 (H (mkPlayer 5 (mkTurtle 205 205 0)))).
    unfold Player_x, Player_y. simpl. lra.
  - apply (proj1 (proj2 (H (mkPlayer 5 (mkTurtle 210 205 0))))).
    unfold Player_x, Player_y. simpl. lra.
Defined.

(** ** Player *)

Lemma waypoint_after_arrival_test (p : Player) (g : Game) :
  waypoint (if contains (home g) (Player_x p) (Player_y p)
            then game_over_win g else g) = waypoint g.
Proof. destruct (contains _ _ _); reflexivity. Qed.

(** What [Player.update] does while the waypoint is active, in one equation:
    the player is moved along the angle to the waypoint and the waypoint is
    deactivated when the new distance is below the speed. *)
Lemma Player_update_active (p : Player) (g : Game) :
  is_active (waypoint g) = true ->
  let wp := waypoint g in
  let g1 := if contains (home g) (Player_x p) (Player_y p)
            then game_over_win g else g in
  let a := towards (turtle p) (wp_x wp) (wp_y wp) in
  let t2 := forward (speed p) (setheading a (turtle p)) in
  Player_update p g =
  if distance t2 (wp_x wp) (wp_y wp) <? speed p
  then set_waypoint (deactivate wp) (set_player (mkPlayer (speed p) t2) g1)
  else set_player (mkPlayer (speed p) t2) g1.
Proof.
  intros Hact. cbv zeta. unfold Player_update.
  rewrite waypoint_after_arrival_test, Hact. reflexivity.
Qed.

(** The distance that decides the deactivation, in terms of the distance
    before the move. *)
Lemma distance_after_move (t : Turtle) (s wx wy : R) :
  let t2 := forward s (setheading (towards t wx wy) t) in
  (distance t2 wx wy < s <-> 0 < distance t wx wy < 2 * s).
Proof.
  cbv zeta. unfold distance, forward, setheading, towards. simpl.
  set (dx := wx - xcor t). set (dy := wy - ycor t).
  replace (wx - (xcor t + s * cos (atan2 dy dx)))
    with (dx - s * cos (atan2 dy dx)) by (unfold dx; ring).
  replace (wy - (ycor t + s * sin (atan2 dy dx)))
    with (dy - s * sin (atan2 dy dx)) by (unfold dy; ring).
  destruct (Req_dec dx 0) as [Hx | Hx]; [ destruct (Req_dec dy 0) as [Hy | Hy] | ].
  - rewrite Hx, Hy, atan2_origin.
    replace (0 - s * cos 0) with ((- s) * cos 0) by ring.
    replace (0 - s * sin 0) with ((- s) * sin 0) by ring.
    rewrite step_length. unfold hypot.
    replace (0 ^ 2 + 0 ^ 2) with 0 by ring. rewrite sqrt_0.
    rewrite Rabs_Ropp. pose proof (Rle_abs s). lra.
  - rewrite hypot_after_step by (right; exact Hy).
    pose proof (sqrt_sum_sqr_pos dx dy (or_intror Hy)) as Hd. unfold hypot.
    set (d := sqrt (dx ^ 2 + dy ^ 2)) in *.
    unfold Rabs. destruct (Rcase_abs (d - s)); lra.
  - rewrite hypot_after_step by (left; exact Hx).
    pose proof (sqrt_sum_sqr_pos dx dy (or_introl Hx)) as Hd. unfold hypot.
    set (d := sqrt (dx ^ 2 + dy ^ 2)) in *.
    unfold Rabs. destruct (Rcase_abs (d - s)); lra.
Qed.

(** The flag of the waypoint after an update that found it active. *)
Lemma waypoint_after_update (p : Player) (g : Game) :
  is_active (waypoint g) = true ->
  let wp := waypoint g in
  let t2 := forward (speed p)
              (setheading (towards (turtle p) (wp_x wp) (wp_y wp)) (turtle p)) in
  is_active (waypoint (Player_update p g))
  = negb (distance t2 (wp_x wp) (wp_y wp) <? speed p).
Proof.
  intros Hact wp t2.
  pose proof (Player_update_active p g Hact) as Hup. cbv zeta in Hup.
  rewrite Hup. fold wp t2.
  destruct (distance t2 (wp_x wp) (wp_y wp) <? speed p); simpl.
  - reflexivity.
  - rewrite waypoint_after_arrival_test. exact Hact.
Qed.

Lemma waypoint_deactivated_iff_before (p : Player) (g : Game) :
  is_active (waypoint g) = true ->
  (is_active (waypoint (Player_update p g)) = false <->
   0 < distance (turtle p) (wp_x (waypoint g)) (wp_y (waypoint g)) < 2 * speed p).
Proof.
  intros Hact. rewrite (waypoint_after_update p g Hact).
  rewrite negb_false_iff, Rltb_true. apply distance_after_move.
Qed.

(** C2 (as the code has it).  In an update that finds the player outside
    home and the waypoint active, the waypoint is deactivated exactly when
    the distance to the waypoint measured after the move of [speed] units is
    less than [speed], and stays active otherwise. *)
Theorem waypoint_deactivated_after_move (p : Player) (g : Game) :
  contains (home g) (Player_x p) (Player_y p) = false ->
  is_active (waypoint g) = true ->
  let wp := waypoint g in
  let g' := Player_update p g in
  exists p', player g' = Some p' /\
     Player_x p' = Player_x p + speed p * cos (towards (turtle p) (wp_x wp) (wp_y wp)) /\
     Player_y p' = Player_y p + speed p * sin (towards (turtle p) (wp_x wp) (wp_y wp)) /\
     (is_active (waypoint g') = false <->
      distance (turtle p') (wp_x wp) (wp_y wp) < speed p') /\
     (is_active (waypoint g') = true <->
      speed p' <= distance (turtle p') (wp_x wp) (wp_y wp)).
Proof.
  intros Hout Hact wp g'.
  pose proof (Player_update_active p g Hact) as Hup. cbv zeta in Hup.
  rewrite Hout in Hup. fold wp in Hup. fold g' in Hup.
  set (t2 := forward (speed p)
               (setheading (towards (turtle p) (wp_x wp) (wp_y wp)) (turtle p))) in *.
  exists (mkPlayer (speed p) t2).
  destruct (distance t2 (wp_x wp) (wp_y wp) <? speed p) eqn:Hlt; rewrite Hup; simpl.
  - apply Rltb_true in Hlt. repeat split; auto; try discriminate. intros; lra.
  - apply Rltb_false in Hlt. rewrite Hact.
    repeat split; auto; try discriminate. intros; lra.
Qed.

(** ** Walking straight east *)

Lemma hypot_0_r (a : R) : hypot a 0 = Rabs a.
Proof.
  unfold hypot. replace (a ^ 2 + 0 ^ 2) with (a²) by (unfold Rsqr; ring).
  apply sqrt_Rsqr_abs.
Qed.

Lemma towards_east (t : Turtle) (wx wy : R) :
  ycor t = wy -> xcor t < wx -> towards t wx wy = 0.
Proof.
  intros Hy Hx. unfold towards. replace (wy - ycor t) with 0 by lra.
  apply atan2_east. lra.
Qed.

Lemma forward_east (s : R) (t : Turtle) :
  forward s (setheading 0 t) = mkTurtle (xcor t + s) (ycor t) 0.
Proof.
  unfold forward, setheading. simpl. rewrite cos_0, sin_0. f_equal; ring.
Qed.

Lemma distance_level (t : Turtle) (wx wy : R) :
  ycor t = wy -> distance t wx wy = Rabs (wx - xcor t).
Proof.
  intros Hy. unfold distance. replace (wy - ycor t) with 0 by lra.
  apply hypot_0_r.
Qed.

(** [Player.update] when the active waypoint lies due east of the player. *)
Lemma Player_update_east (p : Player) (g : Game) :
  is_active (waypoint g) = true ->
  ycor (turtle p) = wp_y (waypoint g) ->
  xcor (turtle p) < wp_x (waypoint g) ->
  let wp := waypoint g in
  let g1 := if contains (home g) (Player_x p) (Player_y p)
            then game_over_win g else g in
  let p' := mkPlayer (speed p)
                     (mkTurtle (xcor (turtle p) + speed p) (ycor (turtle p)) 0) in
  Player_update p g =
  if Rabs (wp_x wp - (xcor (turtle p) + speed p)) <? speed p
  then set_waypoint (deactivate wp) (set_player p' g1)
  else set_player p' g1.
Proof.
  intros Hact Hy Hx. cbv zeta.
  pose proof (Player_update_active p g Hact) as Hup. cbv zeta in Hup.
  rewrite Hup, towards_east, forward_east by assumption.
  rewrite distance_level by (simpl; exact Hy). reflexivity.
Qed.

(** ** Concrete sessions *)

Lemma new_game_arena : new_game 800 600 1 = Returned arena.
Proof. reflexivity. Qed.

(** C1 (the code at the failing input).  The player stands inside home at
    (700, 300) with the waypoint active at (800, 300): the update emits Win
    and stops the session, and still moves the player 5 units east, to
    (705, 300). *)
Theorem Player_update_moves_after_win :
  contains (home arrived_game) (Player_x arrived_player) (Player_y arrived_player)
  = true /\
  is_active (waypoint arrived_game) = true /\
  signals (Player_update arrived_player arrived_game) = [Win] /\
  is_running (Player_update arrived_player arrived_game) = false /\
  player (Player_update arrived_player arrived_game)
  = Some (mkPlayer 5 (mkTurtle 705 300 0)).
Proof.
  assert (Hc : contains (home arrived_game) (Player_x arrived_player)
                        (Player_y arrived_player) = true).
  { apply contains_spec. unfold Player_x, Player_y. simpl. lra. }
  split; [ exact Hc | split; [ reflexivity | ] ].
  pose proof (Player_update_east arrived_player arrived_game) as Hup.
  cbv zeta in Hup. rewrite Hc in Hup.
  rewrite Hup; [ | reflexivity | reflexivity | simpl; lra ].
  replace (Rabs (wp_x (waypoint arrived_game)
                 - (xcor (turtle arrived_player) + speed arrived_player))
           <? speed arrived_player) with false.
  - simpl. repeat split. do 2 f_equal. f_equal; lra.
  - symmetry. apply Rltb_false. simpl.
    rewrite Rabs_pos_eq; lra.
Qed.

(** Whenever the player is inside home while the waypoint is active, the
    update emits Win and displaces the player by [|speed|]. *)
Lemma Player_update_at_home (p : Player) (g : Game) :
  contains (home g) (Player_x p) (Player_y p) = true ->
  is_active (waypoint g) = true ->
  exists p',
    player (Player_update p g) = Some p' /\
    In Win (signals (Player_update p g)) /\
    hypot (Player_x p' - Player_x p) (Player_y p' - Player_y p) = Rabs (speed p).
Proof.
  intros Hc Hact.
  pose proof (Player_update_active p g Hact) as Hup. cbv zeta in Hup.
  rewrite Hc in Hup. rewrite Hup.
  set (a := towards (turtle p) (wp_x (waypoint g)) (wp_y (waypoint g))).
  exists (mkPlayer (speed p) (forward (speed p) (setheading a (turtle p)))).
  split; [ | split ].
  - destruct (_ <? _); reflexivity.
  - destruct (_ <? _); simpl; apply in_or_app; right; left; reflexivity.
  - unfold Player_x, Player_y. simpl.
    replace (xcor (turtle p) + speed p * cos a - xcor (turtle p))
      with (speed p * cos a) by ring.
    replace (ycor (turtle p) + speed p * sin a - ycor (turtle p))
      with (speed p * sin a) by ring.
    apply step_length.
Qed.

(** C2 (as the claim words it, refuted).  The player is 7 units away from
    the active waypoint and walks 5: the distance before the move is not
    below the speed, and the waypoint is deactivated all the same. *)
Lemma waypoint_before_move_counterexample :
  is_active (waypoint near_game) = true /\
  ~ (is_active (waypoint (Player_update near_player near_game)) = false <->
     distance (turtle near_player) (wp_x (waypoint near_game))
              (wp_y (waypoint near_game)) < speed near_player).
Proof.
  split; [ reflexivity | ].
  assert (Hd : distance (turtle near_player) (wp_x (waypoint near_game))
                        (wp_y (waypoint near_game)) = 7).
  { rewrite distance_level by reflexivity. simpl. rewrite Rabs_pos_eq; lra. }
  intros [Hto _].
  assert (Hoff : is_active (waypoint (Player_update near_player near_game)) = false).
  { apply waypoint_deactivated_iff_before; [ reflexivity | ].
    rewrite Hd. simpl. lra. }
  specialize (Hto Hoff). rewrite Hd in Hto. simpl in Hto. lra.
Qed.

Lemma waypoint_deactivated_after_move_witness :
  contains (home near_game) (Player_x near_player) (Player_y near_player) = false /\
  is_active (waypoint near_game) = true /\
  exists p',
    player (Player_update near_player near_game) = Some p' /\
    (is_active (waypoint (Player_update near_player near_game)) = false <->
     distance (turtle p') (wp_x (waypoint near_game)) (wp_y (waypoint near_game))
     < speed p').
Proof.
  assert (Hout : contains (home near_game) (Player_x near_player)
                          (Player_y near_player) = false).
  { apply not_true_is_false. intros Hc. apply contains_spec in Hc.
    unfold Player_x, Player_y in Hc. simpl in Hc. lra. }
  split; [ exact Hout | split; [ reflexivity | ] ].
  destruct (waypoint_deactivated_after_move near_player near_game Hout eq_refl)
    as (p' & Hp' & _ & _ & Hoff & _).
  exists p'. split; assumption.
Defined.

(** ** Construction *)

(** C3 (as the code has it).  No constructor validates its arguments: for
    every speed and every size, negative ones included, constructing a
    player or an enemy of any of the four classes returns the object with
    the value stored as given, and raises nothing. *)
Theorem construction_accepts_every_speed_and_size
        (g : Game) (t : Turtle) (v : R) (col : string) :
  Player_init t v = Returned (mkPlayer v t) /\
  Enemy_init v col = Returned (mkEnemyBase 0 0 v col) /\
  (exists e, ChasingEnemy_init g v col = Returned e /\ size (ce_base e) = v) /\
  (exists e, FencingEnemy_init g v col = Returned e /\ size (fe_base e) = v) /\
  (exists e, RandomEnemy_init g v col = Returned e /\ size (re_base e) = v) /\
  (exists e, FrontGateEnermy_init g v col = Returned e /\ size (fg_base e) = v).
Proof.
  repeat split; eexists; split; reflexivity.
Qed.

(** C3 (as the claim words it, refuted).  A player of speed [-1] and enemies
    of size [-1] are constructed; none of the calls raises
    [InvalidConfiguration]. *)
Lemma negative_speed_and_size_counterexample :
  -1 < 0 /\
  Player_init (mkTurtle 0 0 0) (-1) = Returned (mkPlayer (-1) (mkTurtle 0 0 0)) /\
  Player_init (mkTurtle 0 0 0) (-1) <> Raised "InvalidConfiguration" /\
  ChasingEnemy_init arena (-1) "blue" <> Raised "InvalidConfiguration" /\
  FencingEnemy_init arena (-1) "orange" <> Raised "InvalidConfiguration" /\
  RandomEnemy_init arena (-1) "red" <> Raised "InvalidConfiguration" /\
  FrontGateEnermy_init arena (-1) "pink" <> Raised "InvalidConfiguration".
Proof.
  split; [ lra | ]. split; [ reflexivity | ].
  repeat split; discriminate.
Qed.

(** ** The walk home *)

Lemma scenario_walking : scenario = walking 50.
Proof. reflexivity. Qed.

Lemma walking_ext (x x' : R) : x = x' -> walking x = walking x'.
Proof. intros ->. reflexivity. Qed.

(** A tick of a running session that holds the waypoint, the home and the
    player only. *)
Lemma advance_tick_no_enemy (g : Game) (p : Player) :
  is_running g = true ->
  elements g = [ElWaypoint; ElHome; ElPlayer] ->
  player g = Some p ->
  advance_tick g = set_elements [ElWaypoint; ElHome; ElPlayer] (Player_update p g).
Proof.
  intros Hrun Hel Hp. unfold advance_tick. rewrite Hrun, Hel.
  unfold update_all, Element_update. rewrite Hrun, Hp.
  destruct (is_running (Player_update p g)); reflexivity.
Qed.

Lemma advance_tick_stopped (g : Game) : is_running g = false -> advance_tick g = g.
Proof. intros H. unfold advance_tick. rewrite H. reflexivity. Qed.

Lemma ticks_stopped (n : nat) (g : Game) : is_running g = false -> ticks n g = g.
Proof.
  intros H. induction n as [ | n IH]; simpl.
  - reflexivity.
  - rewrite advance_tick_stopped by exact H. exact IH.
Qed.

Lemma ticks_add (m n : nat) (g : Game) : ticks (m + n) g = ticks n (ticks m g).
Proof.
  revert g. induction m as [ | m IH]; intros g; simpl.
  - reflexivity.
  - apply IH.
Qed.

(** West of home's left edge a tick moves the player 5 units east and
    changes nothing else. *)
Lemma advance_walking (x : R) : x < 690 -> advance_tick (walking x) = walking (x + 5).
Proof.
  intros Hx.
  rewrite (advance_tick_no_enemy (walking x) (mkPlayer 5 (mkTurtle x 300 0)))
    by reflexivity.
  pose proof (Player_update_east (mkPlayer 5 (mkTurtle x 300 0)) (walking x)) as Hup.
  cbv zeta in Hup. rewrite Hup; [ | reflexivity | reflexivity | simpl; lra ].
  clear Hup.
  replace (contains (home (walking x)) (Player_x (mkPlayer 5 (mkTurtle x 300 0)))
                    (Player_y (mkPlayer 5 (mkTurtle x 300 0)))) with false.
  - replace (Rabs (wp_x (waypoint (walking x))
                   - (xcor (turtle (mkPlayer 5 (mkTurtle x 300 0)))
                      + speed (mkPlayer 5 (mkTurtle x 300 0))))
             <? speed (mkPlayer 5 (mkTurtle x 300 0))) with false.
    + reflexivity.
    + symmetry. apply Rltb_false. simpl. rewrite Rabs_pos_eq; lra.
  - symmetry. apply not_true_is_false. intros Hc.
    apply contains_spec in Hc. unfold Player_x, Player_y in Hc. simpl in Hc. lra.
Qed.

Lemma ticks_walking (k : nat) :
  forall x : R, x + 5 * INR k <= 690 -> ticks k (walking x) = walking (x + 5 * INR k).
Proof.
  induction k as [ | k IH]; intros x Hx.
  - simpl. apply walking_ext. lra.
  - rewrite S_INR in Hx. pose proof (pos_INR k) as Hk.
    change (ticks (S k) (walking x)) with (ticks k (advance_tick (walking x))).
    rewrite advance_walking by lra.
    rewrite IH by lra. apply walking_ext. rewrite S_INR. lra.
Qed.

(** On home's left edge the tick reports the win, and the player still
    takes its step. *)
Lemma advance_arrival : advance_tick (walking 690) = arrived.
Proof.
  rewrite (advance_tick_no_enemy (walking 690) (mkPlayer 5 (mkTurtle 690 300 0)))
    by reflexivity.
  pose proof (Player_update_east (mkPlayer 5 (mkTurtle 690 300 0)) (walking 690))
    as Hup.
  cbv zeta in Hup. rewrite Hup; [ | reflexivity | reflexivity | simpl; lra ].
  clear Hup.
  replace (contains (home (walking 690))
                    (Player_x (mkPlayer 5 (mkTurtle 690 300 0)))
                    (Player_y (mkPlayer 5 (mkTurtle 690 300 0)))) with true.
  - replace (Rabs (wp_x (waypoint (walking 690))
                   - (xcor (turtle (mkPlayer 5 (mkTurtle 690 300 0)))
                      + speed (mkPlayer 5 (mkTurtle 690 300 0))))
             <? speed (mkPlayer 5 (mkTurtle 690 300 0))) with false.
    + unfold arrived, set_player, set_elements. simpl.
      replace (690 + 5) with 695 by lra. reflexivity.
    + symmetry. apply Rltb_false. simpl. rewrite Rabs_pos_eq; lra.
  - symmetry. apply contains_spec. unfold Player_x, Player_y. simpl. lra.
Qed.

Lemma INR_IZR (n : nat) : INR n = IZR (Z.of_nat n).
Proof. apply INR_IZR_INZ. Qed.

(** The session of the scenario after [n] ticks. *)
Lemma ticks_scenario_before (n : nat) :
  (n <= 128)%nat -> ticks n scenario = walking (50 + 5 * INR n).
Proof.
  intros Hn. rewrite scenario_walking. apply ticks_walking.
  apply le_INR in Hn. replace (INR 128) with 128 in Hn; [ lra | ].
  rewrite INR_IZR. reflexivity.
Qed.

Lemma ticks_scenario_from (n : nat) :
  (129 <= n)%nat -> ticks n scenario = arrived.
Proof.
  intros Hn. replace n with (128 + 1 + (n - 129))%nat by lia.
  rewrite !ticks_add, ticks_scenario_before by lia.
  replace (50 + 5 * INR 128) with 690.
  - change (ticks 1 (walking 690)) with (advance_tick (walking 690)).
    rewrite advance_arrival. apply ticks_stopped. reflexivity.
  - rewrite INR_IZR. simpl. lra.
Qed.

(** C4 (as the code has it).  In the session of 800 by 600 (home at
    (700, 300) of size 20, the player at (50, 300) with speed 5, no enemy
    spawned) with the waypoint activated at (700, 300), where [contains] is
    the inclusive square test, no Win has been reported after any of the first 128 ticks,
    and the Win is reported by tick 129: after 128 steps the player stands at
    x = 690, on home's left edge.  The session is stopped from then on. *)
Theorem first_win_on_tick_129 :
  new_game 800 600 1 = Returned arena /\
  scenario = on_click 700 300 arena /\
  (forall (h : Home) (x y : R),
     contains h x y = true <->
     (home_x h - home_size h / 2 <= x <= home_x h + home_size h / 2) /\
     (home_y h - home_size h / 2 <= y <= home_y h + home_size h / 2)) /\
  (forall n : nat,
     (n <= 128)%nat ->
     signals (ticks n scenario) = [] /\ is_running (ticks n scenario) = true /\
     player (ticks n scenario) = Some (mkPlayer 5 (mkTurtle (50 + 5 * INR n) 300 0))) /\
  (forall n : nat,
     (129 <= n)%nat ->
     signals (ticks n scenario) = [Win] /\ is_running (ticks n scenario) = false).
Proof.
  split; [ reflexivity | split; [ reflexivity | split; [ exact contains_spec | ] ] ].
  split; intros n Hn.
  - rewrite ticks_scenario_before by exact Hn. repeat split.
  - rewrite ticks_scenario_from by exact Hn. repeat split.
Qed.

Lemma first_win_on_tick_129_witness :
  (128 <= 128)%nat /\ (129 <= 129)%nat /\
  signals (ticks 128 scenario) = [] /\ signals (ticks 129 scenario) = [Win].
Proof.
  split; [ lia | split; [ lia | ] ].
  pose proof first_win_on_tick_129 as [_ [_ [_ [Hb Ha]]]].
  split.
  - apply (Hb 128%nat). lia.
  - apply (Ha 129%nat). lia.
Defined.

(** C4 (as the claim words it, refuted).  The Win is already on record after
    129 ticks, so tick 130 is not the first to report it. *)
Lemma win_after_130_ticks_counterexample :
  (129 < 130)%nat /\ signals (ticks 129 scenario) = [Win].
Proof.
  split; [ lia | ]. rewrite ticks_scenario_from by lia. reflexivity.
Qed.

(** ** ChasingEnemy *)

Lemma ChasingEnemy_update_hit (e : ChasingEnemy) (g : Game) (p : Player) :
  player g = Some p ->
  hypot (Player_x p - e_x (ce_base e)) (Player_y p - e_y (ce_base e))
  < size (ce_base e) ->
  ChasingEnemy_update e g = (e, game_over_lose g).
Proof.
  intros Hp Hd. unfold ChasingEnemy_update. rewrite Hp.
  apply Rltb_true in Hd. unfold hypot in Hd. rewrite Hd. reflexivity.
Qed.

Lemma ChasingEnemy_update_move (e : ChasingEnemy) (g : Game) (p : Player) :
  player g = Some p ->
  size (ce_base e)
  <= hypot (Player_x p - e_x (ce_base e)) (Player_y p - e_y (ce_base e)) ->
  let b := ce_base e in
  let a := atan2 (Player_y p - e_y b) (Player_x p - e_x b) in
  ChasingEnemy_update e g
  = (mkChasing (move_to (e_x b + 3 * cos a) (e_y b + 3 * sin a) b), g).
Proof.
  intros Hp Hd. cbv zeta. unfold ChasingEnemy_update. rewrite Hp.
  apply Rltb_false in Hd. unfold hypot in Hd. rewrite Hd. reflexivity.
Qed.

Lemma sqrt_50_lt_20 : sqrt ((205 - 200) ^ 2 + (205 - 200) ^ 2) < 20.
Proof.
  apply Rlt_le_trans with (sqrt (20 * 20)).
  - apply sqrt_lt_1; lra.
  - rewrite sqrt_square; lra.
Qed.

(** C6.  In every update of a chasing enemy (the player exists): when the
    Euclidean distance [d] to the player is strictly below the enemy's size
    a Lose is emitted and the enemy does not move; otherwise no signal is
    emitted and the enemy moves by [3 * (cos a, sin a)] where [a] is the
    angle from the enemy to the player, a displacement of length exactly 3
    which, when [d > 0], is [3 / d] times the vector to the player.  The
    enemy at (200, 200) of size 20 with the player at (205, 205) emits Lose
    on its update. *)
Theorem chasing_enemy_update :
  (forall (e : ChasingEnemy) (g : Game) (p : Player),
     player g = Some p ->
     let b := ce_base e in
     let dx := Player_x p - e_x b in
     let dy := Player_y p - e_y b in
     let d := hypot dx dy in
     let a := atan2 dy dx in
     (d < size b ->
      ChasingEnemy_update e g = (e, game_over_lose g) /\
      signals (game_over_lose g) = signals g ++ [Lose] /\
      is_running (game_over_lose g) = false)
     /\
     (size b <= d ->
      exists b',
        ChasingEnemy_update e g = (mkChasing b', g) /\
        e_x b' = e_x b + 3 * cos a /\ e_y b' = e_y b + 3 * sin a /\
        size b' = size b /\ color b' = color b /\
        hypot (e_x b' - e_x b) (e_y b' - e_y b) = 3 /\
        (0 < d -> e_x b' = e_x b + 3 * (dx / d) /\ e_y b' = e_y b + 3 * (dy / d))))
  /\
  (forall (g : Game) (p : Player) (col : string),
     player g = Some p -> Player_x p = 205 -> Player_y p = 205 ->
     let e := mkChasing (mkEnemyBase 200 200 20 col) in
     ChasingEnemy_update e g = (e, game_over_lose g) /\
     In Lose (signals (game_over_lose g))).
Proof.
  split.
  - intros e g p Hp b dx dy d a. split.
    + intros Hd. split; [ | split; reflexivity ].
      apply (ChasingEnemy_update_hit e g p Hp Hd).
    + intros Hd.
      exists (move_to (e_x b + 3 * cos a) (e_y b + 3 * sin a) b).
      split; [ apply (ChasingEnemy_update_move e g p Hp Hd) | ].
      simpl. repeat split.
      * replace (e_x b + 3 * cos a - e_x b) with (3 * cos a) by ring.
        replace (e_y b + 3 * sin a - e_y b) with (3 * sin a) by ring.
        rewrite step_length. apply Rabs_pos_eq. lra.
      * destruct (cos_sin_atan2 dx dy) as [Hc _].
        { destruct (Req_dec dx 0) as [Hx | Hx]; [ | left; exact Hx ].
          destruct (Req_dec dy 0) as [Hy | Hy]; [ | right; exact Hy ].
          exfalso. unfold d, hypot in H. rewrite Hx, Hy in H.
          replace (0 ^ 2 + 0 ^ 2) with 0 in H by ring. rewrite sqrt_0 in H. lra. }
        fold a in Hc. rewrite Hc. reflexivity.
      * destruct (cos_sin_atan2 dx dy) as [_ Hs].
        { destruct (Req_dec dx 0) as [Hx | Hx]; [ | left; exact Hx ].
          destruct (Req_dec dy 0) as [Hy | Hy]; [ | right; exact Hy ].
          exfalso. unfold d, hypot in H. rewrite Hx, Hy in H.
          replace (0 ^ 2 + 0 ^ 2) with 0 in H by ring. rewrite sqrt_0 in H. lra. }
        fold a in Hs. rewrite Hs. reflexivity.
  - intros g p col Hp Hx Hy e. split.
    + apply (ChasingEnemy_update_hit e g p Hp). simpl. rewrite Hx, Hy.
      exact sqrt_50_lt_20.
    + simpl. apply in_or_app. right. left. reflexivity.
Qed.

Lemma chasing_enemy_update_witness :
  player chased_game = Some (mkPlayer 5 (mkTurtle 205 205 0)) /\
  ChasingEnemy_update (mkChasing (mkEnemyBase 200 200 20 "blue")) chased_game
  = (mkChasing (mkEnemyBase 200 200 20 "blue"), game_over_lose chased_game).
Proof.
  split; [ reflexivity | ].
  exact (proj1 (proj2 chasing_enemy_update chased_game
                      (mkPlayer 5 (mkTurtle 205 205 0)) "blue"%string
                      eq_refl eq_refl eq_refl)).
Defined.

(** ** RandomEnemy and FrontGateEnermy *)

Lemma outside_true (v lo hi : R) :
  ((v <? lo) || (hi <? v)) = true <-> v < lo \/ hi < v.
Proof. rewrite orb_true_iff, !Rltb_true. tauto. Qed.

Lemma outside_false (v lo hi : R) :
  ((v <? lo) || (hi <? v)) = false <-> lo <= v <= hi.
Proof. rewrite orb_false_iff, !Rltb_false. tauto. Qed.

(** Reading off the two branches of a reflection. *)
Lemma reflection_cases (v lo hi a a' : R) :
  let r := if (v <? lo) || (hi <? v) then a' else a in
  (v < lo \/ hi < v -> r = a') /\ (lo <= v <= hi -> r = a).
Proof.
  cbv zeta. destruct ((v <? lo) || (hi <? v)) eqn:Hc.
  - apply outside_true in Hc. split; [ reflexivity | lra ].
  - apply outside_false in Hc. split; [ lra | reflexivity ].
Qed.

Lemma RandomEnemy_update_no_hit (e : RandomEnemy) (g : Game) (p : Player) :
  player g = Some p ->
  hits_player (re_base e) p = false ->
  let b := re_base e in
  let x := e_x b + 3 * cos (re_angle e) in
  let y := e_y b + 3 * sin (re_angle e) in
  let a1 := if (x <? 0) || (IZR (screen_width g) <? x)
            then PI - re_angle e else re_angle e in
  let a2 := if (y <? 0) || (IZR (screen_height g) <? y) then - a1 else a1 in
  RandomEnemy_update e g = (mkRandom (mkEnemyBase x y (size b) (color b)) a2, g).
Proof.
  intros Hp Hhit. cbv zeta. unfold RandomEnemy_update. rewrite Hp, Hhit.
  reflexivity.
Qed.

Lemma FrontGateEnermy_update_no_hit (e : FrontGateEnermy) (g : Game) (p : Player) :
  player g = Some p ->
  hits_player (fg_base e) p = false ->
  let b := fg_base e in
  let sw := screen_width g in
  let sh := screen_height g in
  let x := e_x b + 3 * cos (fg_angle e) in
  let y := e_y b + 3 * sin (fg_angle e) in
  let a1 := if (x <? IZR (sw - sw / 4)) || (IZR sw <? x)
            then PI - fg_angle e else fg_angle e in
  let a2 := if (y <? IZR (sh / 3)) || (IZR (sh - sh / 3) <? y) then - a1 else a1 in
  FrontGateEnermy_update e g
  = (mkFrontGate (mkEnemyBase x y (size b) (color b)) a2, g).
Proof.
  intros Hp Hhit. cbv zeta. unfold FrontGateEnermy_update. rewrite Hp, Hhit.
  reflexivity.
Qed.

Lemma step_3_length (x y a : R) : hypot (x + 3 * cos a - x) (y + 3 * sin a - y) = 3.
Proof.
  replace (x + 3 * cos a - x) with (3 * cos a) by ring.
  replace (y + 3 * sin a - y) with (3 * sin a) by ring.
  rewrite step_length. apply Rabs_pos_eq. lra.
Qed.

(** C7.  A random enemy is constructed with the angle 45, which [update]
    hands to [cos] and [sin] as it is.  In every update without a hit the
    enemy moves 3 units along its angle [a]; then the angle becomes
    [a1 = PI - a] if the new x is outside [[0, screen_width]] (and [a1 = a]
    otherwise), and after that [- a1] if the new y is outside
    [[0, screen_height]] (and [a1] otherwise).  An enemy with angle 0 at
    x = screen_width + 1 heads in direction pi after its update: its angle
    is pi when its y is within [[0, screen_height]], and [- pi] when its y
    is outside. *)
Theorem random_enemy_update :
  (forall (g : Game) (sz : R) (col : string),
     RandomEnemy_init g sz col = Returned (mkRandom (mkEnemyBase 0 0 sz col) 45))
  /\
  (forall (e : RandomEnemy) (g : Game) (p : Player),
     player g = Some p -> hits_player (re_base e) p = false ->
     let b := re_base e in
     let a := re_angle e in
     let x := e_x b + 3 * cos a in
     let y := e_y b + 3 * sin a in
     let W := IZR (screen_width g) in
     let H := IZR (screen_height g) in
     exists a1 a2 : R,
       RandomEnemy_update e g
       = (mkRandom (mkEnemyBase x y (size b) (color b)) a2, g) /\
       hypot (x - e_x b) (y - e_y b) = 3 /\
       (x < 0 \/ W < x -> a1 = PI - a) /\ (0 <= x <= W -> a1 = a) /\
       (y < 0 \/ H < y -> a2 = - a1) /\ (0 <= y <= H -> a2 = a1))
  /\
  (forall (e : RandomEnemy) (g : Game) (p : Player),
     player g = Some p -> hits_player (re_base e) p = false ->
     re_angle e = 0 -> e_x (re_base e) = IZR (screen_width g) + 1 ->
     let e' := fst (RandomEnemy_update e g) in
     cos (re_angle e') = -1 /\ sin (re_angle e') = 0 /\
     (0 <= e_y (re_base e) <= IZR (screen_height g) -> re_angle e' = PI) /\
     (e_y (re_base e) < 0 \/ IZR (screen_height g) < e_y (re_base e) ->
      re_angle e' = - PI)).
Proof.
  split; [ reflexivity | split ].
  - intros e g p Hp Hhit b a x y W H.
    pose proof (RandomEnemy_update_no_hit e g p Hp Hhit) as Hup. cbv zeta in Hup.
    fold b a x y W H in Hup.
    set (a1 := if (x <? 0) || (W <? x) then PI - a else a) in *.
    set (a2 := if (y <? 0) || (H <? y) then - a1 else a1) in *.
    exists a1, a2. split; [ exact Hup | ].
    split; [ apply step_3_length | ].
    destruct (reflection_cases x 0 W a (PI - a)) as [Hx1 Hx2].
    destruct (reflection_cases y 0 H a1 (- a1)) as [Hy1 Hy2].
    repeat split; assumption.
  - intros e g p Hp Hhit Ha Hx e'.
    pose proof (RandomEnemy_update_no_hit e g p Hp Hhit) as Hup. cbv zeta in Hup.
    unfold e'. rewrite Hup. simpl. rewrite Ha, Hx, cos_0, sin_0.
    replace ((IZR (screen_width g) + 1 + 3 * 1 <? 0)
             || (IZR (screen_width g) <? IZR (screen_width g) + 1 + 3 * 1))
      with true.
    + replace (PI - 0) with PI by ring.
      destruct ((e_y (re_base e) + 3 * 0 <? 0)
                || (IZR (screen_height g) <? e_y (re_base e) + 3 * 0)) eqn:Hy.
      * rewrite cos_neg, sin_neg, cos_PI, sin_PI.
        apply outside_true in Hy.
        split; [ reflexivity | split; [ ring | split ] ].
        -- intros Hin. lra.
        -- intros _. reflexivity.
      * rewrite cos_PI, sin_PI. apply outside_false in Hy.
        split; [ reflexivity | split; [ reflexivity | split ] ].
        -- intros _. reflexivity.
        -- intros Hout. lra.
    + symmetry. apply outside_true. right. lra.
Qed.

Lemma new_game_gate_game :
  exists g, new_game 800 500 1 = Returned g /\ gate_game = set_pending [] g.
Proof. eexists. split; reflexivity. Qed.

Lemma random_enemy_update_witness :
  player gate_game = Some (mkPlayer 5 (mkTurtle 50 250 0)) /\
  hits_player (re_base stray_enemy) (mkPlayer 5 (mkTurtle 50 250 0)) = false /\
  re_angle (fst (RandomEnemy_update stray_enemy gate_game)) = PI.
Proof.
  assert (Hhit : hits_player (re_base stray_enemy)
                             (mkPlayer 5 (mkTurtle 50 250 0)) = false).
  { apply not_true_is_false. intros Hh. apply hits_player_spec in Hh.
    unfold Player_x, Player_y in Hh. simpl in Hh. lra. }
  split; [ reflexivity | split; [ exact Hhit | ] ].
  apply (proj2 (proj2 random_enemy_update) stray_enemy gate_game
               (mkPlayer 5 (mkTurtle 50 250 0)) eq_refl Hhit eq_refl).
  - simpl. lra.
  - simpl. lra.
Defined.

(** C7 (as the claim words it, refuted).  On a screen of 800 by 500 a random
    enemy with angle 0 at x = 801 = screen_width + 1 and y = 501 is not hit:
    both reflections apply to it, and its angle after the update is [- pi],
    not pi. *)
Lemma random_enemy_scenario_counterexample :
  player gate_game = Some (mkPlayer 5 (mkTurtle 50 250 0)) /\
  hits_player (re_base low_enemy) (mkPlayer 5 (mkTurtle 50 250 0)) = false /\
  re_angle low_enemy = 0 /\
  e_x (re_base low_enemy) = IZR (screen_width gate_game) + 1 /\
  re_angle (fst (RandomEnemy_update low_enemy gate_game)) = - PI /\
  re_angle (fst (RandomEnemy_update low_enemy gate_game)) <> PI.
Proof.
  assert (Hhit : hits_player (re_base low_enemy)
                             (mkPlayer 5 (mkTurtle 50 250 0)) = false).
  { apply not_true_is_false. intros Hh. apply hits_player_spec in Hh.
    unfold Player_x, Player_y in Hh. simpl in Hh. lra. }
  assert (Hang : re_angle (fst (RandomEnemy_update low_enemy gate_game)) = - PI).
  { rewrite (RandomEnemy_update_no_hit low_enemy gate_game
               (mkPlayer 5 (mkTurtle 50 250 0)) eq_refl Hhit).
    simpl. rewrite cos_0, sin_0.
    replace ((801 + 3 * 1 <? 0) || (800 <? 801 + 3 * 1)) with true
      by (symmetry; apply outside_true; lra).
    replace ((501 + 3 * 0 <? 0) || (500 <? 501 + 3 * 0)) with true
      by (symmetry; apply outside_true; lra).
    ring. }
  split; [ reflexivity | split; [ exact Hhit | ] ].
  split; [ reflexivity | split; [ simpl; lra | ] ].
  split; [ exact Hang | ].
  rewrite Hang. pose proof PI_RGT_0. lra.
Qed.

(** C9 (as the code has it).  In every update of the gate guard without a
    hit the enemy moves 3 units along its angle [a], wherever that takes it;
    then the angle becomes [a1 = PI - a] when the new x is below
    [screen_width - screen_width // 4] or above [screen_width] (and [a1 = a]
    otherwise), and after that [- a1] when the new y is below
    [screen_height // 3] or above [screen_height - screen_height // 3] (and
    [a1] otherwise), where [//] is the floor division of integers. *)
Theorem front_gate_enemy_update (e : FrontGateEnermy) (g : Game) (p : Player) :
  player g = Some p -> hits_player (fg_base e) p = false ->
  let b := fg_base e in
  let a := fg_angle e in
  let x := e_x b + 3 * cos a in
  let y := e_y b + 3 * sin a in
  let sw := screen_width g in
  let sh := screen_height g in
  exists a1 a2 : R,
    FrontGateEnermy_update e g
    = (mkFrontGate (mkEnemyBase x y (size b) (color b)) a2, g) /\
    hypot (x - e_x b) (y - e_y b) = 3 /\
    (x < IZR (sw - sw / 4) \/ IZR sw < x -> a1 = PI - a) /\
    (IZR (sw - sw / 4) <= x <= IZR sw -> a1 = a) /\
    (y < IZR (sh / 3) \/ IZR (sh - sh / 3) < y -> a2 = - a1) /\
    (IZR (sh / 3) <= y <= IZR (sh - sh / 3) -> a2 = a1).
Proof.
  intros Hp Hhit b a x y sw sh.
  pose proof (FrontGateEnermy_update_no_hit e g p Hp Hhit) as Hup.
  cbv zeta in Hup. fold b a x y sw sh in Hup.
  set (a1 := if (x <? IZR (sw - sw / 4)) || (IZR sw <? x) then PI - a else a) in *.
  set (a2 := if (y <? IZR (sh / 3)) || (IZR (sh - sh / 3) <? y)
             then - a1 else a1) in *.
  exists a1, a2. split; [ exact Hup | ].
  split; [ apply step_3_length | ].
  destruct (reflection_cases x (IZR (sw - sw / 4)) (IZR sw) a (PI - a)) as [Hx1 Hx2].
  destruct (reflection_cases y (IZR (sh / 3)) (IZR (sh - sh / 3)) a1 (- a1))
    as [Hy1 Hy2].
  repeat split; assumption.
Qed.

Lemma gate_enemy_no_hit :
  hits_player (fg_base gate_enemy) (mkPlayer 5 (mkTurtle 50 250 0)) = false.
Proof.
  apply not_true_is_false. intros Hh. apply hits_player_spec in Hh.
  unfold Player_x, Player_y in Hh. simpl in Hh. lra.
Qed.

Lemma gate_enemy_update :
  FrontGateEnermy_update gate_enemy gate_game
  = (mkFrontGate (mkEnemyBase (700 + 3 * 0) (327 / 2 + 3 * 1) 20 "pink") (PI / 2),
     gate_game).
Proof.
  pose proof (FrontGateEnermy_update_no_hit gate_enemy gate_game
                (mkPlayer 5 (mkTurtle 50 250 0)) eq_refl gate_enemy_no_hit) as Hup.
  cbv zeta in Hup. rewrite Hup. simpl. rewrite cos_PI2, sin_PI2.
  change (IZR (500 / 3)) with 166.
  replace ((700 + 3 * 0 <? 600) || (800 <? 700 + 3 * 0)) with false
    by (symmetry; apply outside_false; lra).
  replace ((327 / 2 + 3 * 1 <? 166) || (334 <? 327 / 2 + 3 * 1)) with false
    by (symmetry; apply outside_false; lra).
  reflexivity.
Qed.

(** C9 (as the claim words it, refuted).  On a screen of height 500 the gate
    guard arrives at y = 166.5: this is below 500 / 3, so the angle should be
    negated, but not below 500 // 3 = 166, and the angle stays [PI / 2]. *)
Lemma front_gate_real_division_counterexample :
  let e' := fst (FrontGateEnermy_update gate_enemy gate_game) in
  player gate_game = Some (mkPlayer 5 (mkTurtle 50 250 0)) /\
  hits_player (fg_base gate_enemy) (mkPlayer 5 (mkTurtle 50 250 0)) = false /\
  e_y (fg_base e') < IZR (screen_height gate_game) / 3 /\
  fg_angle e' = fg_angle gate_enemy /\
  fg_angle e' <> - fg_angle gate_enemy /\
  fg_angle e' <> gate_angle_real_division
                   (screen_width gate_game) (screen_height gate_game)
                   (e_x (fg_base e')) (e_y (fg_base e')) (fg_angle gate_enemy).
Proof.
  cbv zeta. rewrite gate_enemy_update. simpl.
  pose proof PI_RGT_0 as Hpi.
  split; [ reflexivity | split; [ exact gate_enemy_no_hit | ] ].
  split; [ lra | split; [ reflexivity | split; [ lra | ] ] ].
  unfold gate_angle_real_division.
  replace ((700 + 3 * 0 <? 800 - 800 / 4) || (800 <? 700 + 3 * 0)) with false
    by (symmetry; apply outside_false; lra).
  replace ((327 / 2 + 3 * 1 <? 500 / 3) || (500 - 500 / 3 <? 327 / 2 + 3 * 1))
    with true by (symmetry; apply outside_true; lra).
  lra.
Qed.

Lemma front_gate_enemy_update_witness :
  player gate_game = Some (mkPlayer 5 (mkTurtle 50 250 0)) /\
  hits_player (fg_base gate_enemy) (mkPlayer 5 (mkTurtle 50 250 0)) = false /\
  exists a1 a2 : R,
    FrontGateEnermy_update gate_enemy gate_game
    = (mkFrontGate (mkEnemyBase (700 + 3 * cos (PI / 2)) (327 / 2 + 3 * sin (PI / 2))
                                20 "pink") a2, gate_game) /\
    hypot (700 + 3 * cos (PI / 2) - 700) (327 / 2 + 3 * sin (PI / 2) - 327 / 2) = 3 /\
    (700 + 3 * cos (PI / 2) < 600 \/ 800 < 700 + 3 * cos (PI / 2) ->
     a1 = PI - PI / 2) /\
    (600 <= 700 + 3 * cos (PI / 2) <= 800 -> a1 = PI / 2) /\
    (327 / 2 + 3 * sin (PI / 2) < 166 \/ 334 < 327 / 2 + 3 * sin (PI / 2) ->
     a2 = - a1) /\
    (166 <= 327 / 2 + 3 * sin (PI / 2) <= 334 -> a2 = a1).
Proof.
  split; [ reflexivity | split; [ exact gate_enemy_no_hit | ] ].
  exact (front_gate_enemy_update gate_enemy gate_game
           (mkPlayer 5 (mkTurtle 50 250 0)) eq_refl gate_enemy_no_hit).
Defined.

(** ** FencingEnemy *)

Lemma patrol_corners_50 (hx hy : R) :
  patrol_corners hx hy
  = [(hx - 50, hy - 50); (hx + 50, hy - 50); (hx + 50, hy + 50); (hx - 50, hy + 50)].
Proof.
  unfold patrol_corners. replace (100 / 2) with 50 by lra. reflexivity.
Qed.

(** Split every conditional of the goal. *)
Ltac split_ifs :=
  repeat match goal with
         | |- context [if ?c then _ else _] => destruct c eqn:?
         end.

Lemma FencingEnemy_update_corners (e : FencingEnemy) (g : Game) :
  fe_home_corner (fst (FencingEnemy_update e g)) = fe_home_corner e.
Proof.
  unfold FencingEnemy_update. destruct (player g); [ | reflexivity ].
  split_ifs; reflexivity.
Qed.

Lemma FencingEnemy_update_step_range (e : FencingEnemy) (g : Game) :
  (0 <= fe_step e <= 3)%Z -> (0 <= fe_step (fst (FencingEnemy_update e g)) <= 3)%Z.
Proof.
  intros Hr. unfold FencingEnemy_update. destruct (player g); [ | exact Hr ].
  split_ifs; simpl; lia.
Qed.

Lemma fencing_run_invariant (gs : list Game) :
  forall e : FencingEnemy,
    (0 <= fe_step e <= 3)%Z ->
    (0 <= fe_step (fencing_run gs e) <= 3)%Z /\
    fe_home_corner (fencing_run gs e) = fe_home_corner e.
Proof.
  induction gs as [ | g rest IH]; intros e Hr; simpl.
  - split; [ exact Hr | reflexivity ].
  - destruct (IH (fst (FencingEnemy_update e g))
                 (FencingEnemy_update_step_range e g Hr)) as [Hs Hc].
    split; [ exact Hs | ]. rewrite Hc. apply FencingEnemy_update_corners.
Qed.

Lemma FencingEnemy_update_no_hit (e : FencingEnemy) (g : Game) (p : Player) :
  player g = Some p -> hits_player (fe_base e) p = false ->
  snd (FencingEnemy_update e g) = g.
Proof.
  intros Hp Hhit. unfold FencingEnemy_update. rewrite Hp, Hhit.
  split_ifs; reflexivity.
Qed.

(** C8.  A fencing enemy is constructed in phase 0 with the four corners of
    the square of half-extent 50 around the position home has at that time;
    no update changes the corners, and every update keeps the phase within
    0..3, so wherever the enemy is placed after its construction the phase
    is within 0..3 before and after each update of its life.  In an update
    without a hit: phase 0 moves x by +2 and passes to phase 1 once x has
    reached the right edge; phase 1 moves y by +2 and passes to phase 2 once
    y has reached the bottom edge; phase 2 moves x by -2 and passes to
    phase 3 once x has reached the left edge; phase 3 moves y by -2 and
    wraps to phase 0 once y has reached the top edge. *)
Theorem fencing_enemy_patrol :
  (forall (g : Game) (sz : R) (col : string),
     exists e : FencingEnemy,
       FencingEnemy_init g sz col = Returned e /\ fe_step e = 0%Z /\
       fe_home_corner e
       = [(home_x (home g) - 50, home_y (home g) - 50);
          (home_x (home g) + 50, home_y (home g) - 50);
          (home_x (home g) + 50, home_y (home g) + 50);
          (home_x (home g) - 50, home_y (home g) + 50)] /\
       forall (x y : R) (gs : list Game),
         let placed := fe_with (move_to x y (fe_base e)) (fe_step e) e in
         (0 <= fe_step (fencing_run gs placed) <= 3)%Z /\
         fe_home_corner (fencing_run gs placed) = fe_home_corner e)
  /\
  (forall (e : FencingEnemy) (g : Game),
     fe_home_corner (fst (FencingEnemy_update e g)) = fe_home_corner e /\
     ((0 <= fe_step e <= 3)%Z ->
      (0 <= fe_step (fst (FencingEnemy_update e g)) <= 3)%Z))
  /\
  (forall (e : FencingEnemy) (g : Game) (p : Player) (hx hy : R),
     player g = Some p -> hits_player (fe_base e) p = false ->
     fe_home_corner e = patrol_corners hx hy ->
     let b := fe_base e in
     let e' := fst (FencingEnemy_update e g) in
     let b' := fe_base e' in
     snd (FencingEnemy_update e g) = g /\
     (fe_step e = 0%Z ->
      e_x b' = e_x b + 2 /\ e_y b' = e_y b /\
      (hx + 50 <= e_x b' -> fe_step e' = 1%Z) /\
      (e_x b' < hx + 50 -> fe_step e' = 0%Z)) /\
     (fe_step e = 1%Z ->
      e_x b' = e_x b /\ e_y b' = e_y b + 2 /\
      (hy + 50 <= e_y b' -> fe_step e' = 2%Z) /\
      (e_y b' < hy + 50 -> fe_step e' = 1%Z)) /\
     (fe_step e = 2%Z ->
      e_x b' = e_x b - 2 /\ e_y b' = e_y b /\
      (e_x b' <= hx - 50 -> fe_step e' = 3%Z) /\
      (hx - 50 < e_x b' -> fe_step e' = 2%Z)) /\
     (fe_step e = 3%Z ->
      e_x b' = e_x b /\ e_y b' = e_y b - 2 /\
      (e_y b' <= hy - 50 -> fe_step e' = 0%Z) /\
      (hy - 50 < e_y b' -> fe_step e' = 3%Z))).
Proof.
  split; [ | split ].
  - intros g sz col. eexists. split; [ reflexivity | ]. simpl.
    split; [ reflexivity | ]. split; [ apply patrol_corners_50 | ].
    intros x y gs. apply fencing_run_invariant. simpl. lia.
  - intros e g. split.
    + apply FencingEnemy_update_corners.
    + apply FencingEnemy_update_step_range.
  - intros e g p hx hy Hp Hhit Hc b e' b'.
    split; [ apply (FencingEnemy_update_no_hit e g p Hp Hhit) | ].
    subst b' e' b. unfold FencingEnemy_update, corner.
    rewrite Hp, Hhit, Hc, patrol_corners_50. simpl.
    repeat split;
      match goal with
      | Hs : fe_step e = _ |- _ => rewrite Hs in *
      end; simpl in *;
      match goal with
      | _ : context [if ?c then _ else _] |- _ => destruct c eqn:Hcmp
      | |- context [if ?c then _ else _] => destruct c eqn:Hcmp
      end; simpl in *; try reflexivity;
      first [ apply Rleb_true in Hcmp | apply Rleb_false in Hcmp ]; lra.
Qed.

Lemma fencing_enemy_patrol_witness :
  player gate_game = Some (mkPlayer 5 (mkTurtle 50 250 0)) /\
  fe_step (fst (FencingEnemy_update
                  (mkFencing (mkEnemyBase 749 200 20 "orange") 0 700 250 100
                             (patrol_corners 700 250)) gate_game)) = 1%Z.
Proof.
  split; [ reflexivity | ].
  assert (Hhit : hits_player (mkEnemyBase 749 200 20 "orange")
                             (mkPlayer 5 (mkTurtle 50 250 0)) = false).
  { apply not_true_is_false. intros Hh. apply hits_player_spec in Hh.
    unfold Player_x, Player_y in Hh. simpl in Hh. lra. }
  pose proof (proj2 (proj2 fencing_enemy_patrol)
                (mkFencing (mkEnemyBase 749 200 20 "orange") 0 700 250 100
                           (patrol_corners 700 250))
                gate_game (mkPlayer 5 (mkTurtle 50 250 0)) 700 250
                eq_refl Hhit eq_refl) as [_ [H0 _]].
  destruct (H0 eq_refl) as [Hx [_ [Hedge _]]].
  apply Hedge. rewrite Hx. simpl. lra.
Defined.

(** ** The [enemies] list *)

Lemma Player_update_enemies (p : Player) (g : Game) :
  enemies (Player_update p g) = enemies g.
Proof.
  unfold Player_update. split_ifs; reflexivity.
Qed.

Lemma Enemy_update_enemies (e : Enemy) (g : Game) :
  enemies (snd (Enemy_update e g)) = enemies g.
Proof.
  destruct e as [c | f | r | f]; simpl.
  - unfold ChasingEnemy_update. destruct (player g); [ | reflexivity ].
    split_ifs; reflexivity.
  - unfold FencingEnemy_update. destruct (player g); [ | reflexivity ].
    split_ifs; reflexivity.
  - unfold RandomEnemy_update. destruct (player g); [ | reflexivity ].
    destruct (hits_player _ _); reflexivity.
  - unfold FrontGateEnermy_update. destruct (player g); [ | reflexivity ].
    destruct (hits_player _ _); reflexivity.
Qed.

Lemma Element_update_enemies (el : Element) (g : Game) :
  enemies (snd (Element_update el g)) = enemies g.
Proof.
  destruct el as [ | | | e]; simpl; try reflexivity.
  - destruct (player g); simpl; [ apply Player_update_enemies | reflexivity ].
  - pose proof (Enemy_update_enemies e g) as H.
    destruct (Enemy_update e g). exact H.
Qed.

Lemma update_all_enemies (els : list Element) :
  forall g : Game, enemies (snd (update_all els g)) = enemies g.
Proof.
  induction els as [ | el rest IH]; intros g; simpl.
  - reflexivity.
  - destruct (is_running g); [ | reflexivity ].
    pose proof (Element_update_enemies el g) as Hel.
    destruct (Element_update el g) as [el' g1]. simpl in Hel.
    pose proof (IH g1) as Hrest.
    destruct (update_all rest g1) as [rest' g2]. simpl in *. congruence.
Qed.

Lemma advance_tick_enemies (g : Game) : enemies (advance_tick g) = enemies g.
Proof.
  unfold advance_tick. destruct (is_running g); [ | reflexivity ].
  pose proof (update_all_enemies (elements g) g) as H.
  destruct (update_all (elements g) g) as [els g']. exact H.
Qed.

(** [create_enemy] always returns, with the four enemies appended to the
    element collection in the order random, chasing, fencing, front gate. *)
Lemma create_enemy_returns (gen : EnemyGenerator) (g : Game) :
  exists (r : RandomEnemy) (c : ChasingEnemy) (f : FencingEnemy)
         (fg : FrontGateEnermy) (g' : Game),
    create_enemy gen g = Returned g' /\
    elements g'
    = elements g ++ [ElEnemy (ERandom r); ElEnemy (EChasing c);
                     ElEnemy (EFencing f); ElEnemy (EFrontGate fg)] /\
    enemies g' = enemies g /\
    (e_x (re_base r) = 100 /\ e_y (re_base r) = 100) /\
    (e_x (ce_base c) = 200 /\ e_y (ce_base c) = 200) /\
    (e_x (fe_base f) = IZR (gen_screen_width gen - 150) /\
     e_y (fe_base f) = IZR (gen_screen_height gen / 2 - 50)) /\
    (e_x (fg_base fg) = IZR (gen_screen_width gen - 100) /\
     e_y (fg_base fg) = IZR (gen_screen_height gen / 2)).
Proof.
  do 5 eexists. split; [ reflexivity | ]. simpl.
  rewrite <- !app_assoc. simpl. repeat split.
Qed.

Lemma new_game_enemies (w h lvl : Z) (g : Game) :
  new_game w h lvl = Returned g -> enemies g = [] /\ elements g = [ElWaypoint; ElHome; ElPlayer].
Proof.
  unfold new_game. simpl. intros H. injection H as <-. split; reflexivity.
Qed.

Lemma step_enemies (g g' : Game) : step g g' -> enemies g' = enemies g.
Proof.
  intros Hs. destruct Hs as [g | g x y | g g' gen before after Hpend Hret].
  - apply advance_tick_enemies.
  - reflexivity.
  - destruct (create_enemy_returns gen (set_pending (before ++ after) g))
      as (r & c & f & fg & g2 & Heq & _ & Hen & _).
    rewrite Heq in Hret. injection Hret as <-. exact Hen.
Qed.

Lemma reachable_enemies (g : Game) : reachable g -> enemies g = [].
Proof.
  intros Hr. induction Hr as [w h lvl g Hnew | g g' Hr IH Hs].
  - apply (new_game_enemies w h lvl g Hnew).
  - rewrite (step_enemies g g' Hs). exact IH.
Qed.

(** C10.  [create_enemy] hands its four enemies to [add_element] and leaves
    the [enemies] list as it is; [add_enemy], the only method that appends
    to the list, is run by no transition of the program; hence [enemies] is
    the empty list it was initialised to in every reachable session. *)
Theorem enemies_list_stays_empty :
  (forall (gen : EnemyGenerator) (g : Game),
     exists (r : RandomEnemy) (c : ChasingEnemy) (f : FencingEnemy)
            (fg : FrontGateEnermy) (g' : Game),
       create_enemy gen g = Returned g' /\
       elements g'
       = elements g ++ [ElEnemy (ERandom r); ElEnemy (EChasing c);
                        ElEnemy (EFencing f); ElEnemy (EFrontGate fg)] /\
       enemies g' = enemies g)
  /\
  (forall (e : Enemy) (g : Game), enemies (add_enemy e g) = enemies g ++ [e])
  /\
  (forall (w h lvl : Z) (g : Game), new_game w h lvl = Returned g -> enemies g = [])
  /\
  (forall g g' : Game, step g g' -> enemies g' = enemies g)
  /\
  (forall g : Game, reachable g -> enemies g = []).
Proof.
  split; [ | split; [ | split; [ | split ] ] ].
  - intros gen g.
    destruct (create_enemy_returns gen g) as (r & c & f & fg & g' & H1 & H2 & H3 & _).
    exists r, c, f, fg, g'. repeat split; assumption.
  - reflexivity.
  - intros w h lvl g H. apply (new_game_enemies w h lvl g H).
  - exact step_enemies.
  - exact reachable_enemies.
Qed.

Lemma spawned_reachable : reachable spawned.
Proof.
  unfold spawned.
  destruct (create_enemy_returns (mkGenerator 1 800 600)
              (set_pending [] (on_click 400 300 arena)))
    as (r & c & f & fg & g' & Heq & _).
  rewrite Heq.
  apply reach_step with (g := g'); [ | apply step_tick ].
  apply reach_step with (g := on_click 400 300 arena).
  - apply reach_step with (g := arena); [ | apply step_click ].
    apply (reach_new 800 600 1). exact new_game_arena.
  - apply (step_timer _ _ (mkGenerator 1 800 600) [] []); [ reflexivity | exact Heq ].
Qed.

Lemma enemies_list_stays_empty_witness :
  reachable spawned /\ enemies spawned = [].
Proof.
  split; [ exact spawned_reachable | ].
  exact (proj2 (proj2 (proj2 (proj2 enemies_list_stays_empty)))
               spawned spawned_reachable).
Defined.

(** * Further properties of the code *)

(** ** The player and the waypoint *)

Lemma Player_update_inactive (p : Player) (g : Game) :
  is_active (waypoint g) = false ->
  Player_update p g
  = if contains (home g) (Player_x p) (Player_y p) then game_over_win g else g.
Proof.
  intros Hoff. unfold Player_update.
  rewrite waypoint_after_arrival_test, Hoff. reflexivity.
Qed.

Lemma Enemy_update_frame (e : Enemy) (g : Game) :
  player (snd (Enemy_update e g)) = player g /\
  waypoint (snd (Enemy_update e g)) = waypoint g /\
  home (snd (Enemy_update e g)) = home g.
Proof.
  destruct e as [c | f | r | f]; simpl.
  - unfold ChasingEnemy_update. destruct (player g) eqn:Hp; [ | auto ].
    split_ifs; simpl; auto.
  - unfold FencingEnemy_update. destruct (player g) eqn:Hp; [ | auto ].
    split_ifs; simpl; auto.
  - unfold RandomEnemy_update. destruct (player g) eqn:Hp; [ | auto ].
    destruct (hits_player _ _); simpl; auto.
  - unfold FrontGateEnermy_update. destruct (player g) eqn:Hp; [ | auto ].
    destruct (hits_player _ _); simpl; auto.
Qed.

Lemma Element_update_inactive (el : Element) (g : Game) :
  is_active (waypoint g) = false ->
  player (snd (Element_update el g)) = player g /\
  waypoint (snd (Element_update el g)) = waypoint g /\
  home (snd (Element_update el g)) = home g.
Proof.
  intros Hoff. destruct el as [ | | | e]; simpl; auto.
  - destruct (player g) as [p | ] eqn:Hp; simpl; auto.
    rewrite (Player_update_inactive p g Hoff).
    destruct (contains _ _ _); simpl; auto.
  - pose proof (Enemy_update_frame e g) as H.
    destruct (Enemy_update e g). exact H.
Qed.

(** X1.  While the waypoint is inactive nothing moves the player: whatever
    elements are updated, and however often, the player (position, heading
    and speed), the waypoint and the home are afterwards what they were. *)
Theorem player_stationary_while_waypoint_inactive (els : list Element) (g : Game) :
  is_active (waypoint g) = false ->
  player (run_elements els g) = player g /\
  waypoint (run_elements els g) = waypoint g /\
  home (run_elements els g) = home g.
Proof.
  revert g. induction els as [ | el rest IH]; intros g Hoff; simpl.
  - auto.
  - destruct (Element_update_inactive el g Hoff) as (Hp & Hw & Hh).
    destruct (IH (snd (Element_update el g))) as (Hp' & Hw' & Hh').
    + rewrite Hw. exact Hoff.
    + repeat split; congruence.
Qed.

Lemma player_stationary_while_waypoint_inactive_witness :
  is_active (waypoint arena) = false /\
  player (run_elements
            [ElWaypoint; ElHome; ElPlayer;
             ElEnemy (EChasing (mkChasing (mkEnemyBase 200 200 20 "blue")));
             ElPlayer] arena)
  = Some (mkPlayer 5 (mkTurtle 50 300 0)).
Proof.
  split; [ reflexivity | ].
  exact (proj1 (player_stationary_while_waypoint_inactive _ arena eq_refl)).
Defined.

Lemma player_after_update (p : Player) (g : Game) :
  is_active (waypoint g) = true ->
  player (Player_update p g)
  = Some (mkPlayer (speed p)
            (forward (speed p)
               (setheading (towards (turtle p) (wp_x (waypoint g)) (wp_y (waypoint g)))
                           (turtle p)))).
Proof.
  intros Hact.
  pose proof (Player_update_active p g Hact) as Hup. cbv zeta in Hup.
  rewrite Hup. destruct (_ <? _); reflexivity.
Qed.

Lemma hypot_pos_inv (dx dy : R) : 0 < hypot dx dy -> dx <> 0 \/ dy <> 0.
Proof.
  intros Hd. destruct (Req_dec dx 0) as [Hx | Hx]; [ | left; exact Hx ].
  destruct (Req_dec dy 0) as [Hy | Hy]; [ | right; exact Hy ].
  exfalso. unfold hypot in Hd. rewrite Hx, Hy in Hd.
  replace (0 ^ 2 + 0 ^ 2) with 0 in Hd by ring. rewrite sqrt_0 in Hd. lra.
Qed.

Lemma distance_after_forward (t : Turtle) (s wx wy : R) :
  0 < distance t wx wy ->
  distance (forward s (setheading (towards t wx wy) t)) wx wy
  = Rabs (distance t wx wy - s).
Proof.
  unfold distance, forward, setheading, towards. simpl. intros Hd.
  set (dx := wx - xcor t) in *. set (dy := wy - ycor t) in *.
  replace (wx - (xcor t + s * cos (atan2 dy dx)))
    with (dx - s * cos (atan2 dy dx)) by (unfold dx; ring).
  replace (wy - (ycor t + s * sin (atan2 dy dx)))
    with (dy - s * sin (atan2 dy dx)) by (unfold dy; ring).
  apply hypot_after_step. apply hypot_pos_inv. exact Hd.
Qed.

(** X2.  With the waypoint active, [Player.update] displaces the player by
    exactly [|speed|], whether or not it also reports the win, and keeps the
    speed. *)
Theorem player_step_has_length_speed (p : Player) (g : Game) :
  is_active (waypoint g) = true ->
  exists p',
    player (Player_update p g) = Some p' /\ speed p' = speed p /\
    hypot (Player_x p' - Player_x p) (Player_y p' - Player_y p) = Rabs (speed p).
Proof.
  intros Hact. eexists. split; [ apply (player_after_update p g Hact) | ].
  split; [ reflexivity | ].
  unfold Player_x, Player_y. simpl.
  set (a := towards (turtle p) (wp_x (waypoint g)) (wp_y (waypoint g))).
  replace (xcor (turtle p) + speed p * cos a - xcor (turtle p))
    with (speed p * cos a) by ring.
  replace (ycor (turtle p) + speed p * sin a - ycor (turtle p))
    with (speed p * sin a) by ring.
  apply step_length.
Qed.

Lemma player_step_has_length_speed_witness :
  is_active (waypoint near_game) = true /\
  exists p',
    player (Player_update near_player near_game) = Some p' /\
    speed p' = speed near_player /\
    hypot (Player_x p' - Player_x near_player) (Player_y p' - Player_y near_player)
    = Rabs (speed near_player).
Proof.
  split; [ reflexivity | ].
  exact (player_step_has_length_speed near_player near_game eq_refl).
Defined.

Lemma player_distance_after_move_aux (p : Player) (g : Game) :
  is_active (waypoint g) = true ->
  0 < distance (turtle p) (wp_x (waypoint g)) (wp_y (waypoint g)) ->
  exists p',
    player (Player_update p g) = Some p' /\
    distance (turtle p') (wp_x (waypoint g)) (wp_y (waypoint g))
    = Rabs (distance (turtle p) (wp_x (waypoint g)) (wp_y (waypoint g)) - speed p).
Proof.
  intros Hact Hd. eexists. split; [ apply (player_after_update p g Hact) | ].
  simpl. apply distance_after_forward. exact Hd.
Qed.

(** X3.  With the waypoint active at a distance [d > 0], the player is at
    distance [|d - speed|] from the waypoint after the update: it lands on
    the waypoint when [d = speed] and overshoots it by [speed - d] when
    [d < speed]; the position is not clamped to the waypoint. *)
Theorem player_distance_after_update (p : Player) (g : Game) :
  is_active (waypoint g) = true ->
  0 < distance (turtle p) (wp_x (waypoint g)) (wp_y (waypoint g)) ->
  exists p',
    player (Player_update p g) = Some p' /\
    distance (turtle p') (wp_x (waypoint g)) (wp_y (waypoint g))
    = Rabs (distance (turtle p) (wp_x (waypoint g)) (wp_y (waypoint g)) - speed p).
Proof.
  intros Hact Hd. exact (player_distance_after_move_aux p g Hact Hd).
Qed.

Lemma near_distance :
  distance (turtle near_player) (wp_x (waypoint near_game)) (wp_y (waypoint near_game))
  = 7.
Proof.
  rewrite distance_level by reflexivity. simpl. rewrite Rabs_pos_eq; lra.
Qed.

Lemma player_distance_after_update_witness :
  is_active (waypoint near_game) = true /\
  exists p',
    player (Player_update near_player near_game) = Some p' /\
    distance (turtle p') (wp_x (waypoint near_game)) (wp_y (waypoint near_game))
    = Rabs (distance (turtle near_player) (wp_x (waypoint near_game))
                     (wp_y (waypoint near_game)) - speed near_player).
Proof.
  split; [ reflexivity | ].
  apply (player_distance_after_update near_player near_game eq_refl).
  rewrite near_distance. lra.
Defined.

Lemma atan2_west (x : R) : x < 0 -> atan2 0 x = PI.
Proof.
  intros Hx. unfold atan2.
  destruct (Rlt_dec 0 x) as [H | _]; [ lra | ].
  destruct (Rlt_dec x 0) as [_ | N]; [ | contradiction ].
  destruct (Rle_dec 0 0) as [_ | N]; [ | lra ].
  replace (0 / x) with 0 by (field; lra). rewrite atan_0. ring.
Qed.

Lemma towards_here (t : Turtle) (wx wy : R) :
  xcor t = wx -> ycor t = wy -> towards t wx wy = 0.
Proof.
  intros Hx Hy. unfold towards.
  replace (wy - ycor t) with 0 by lra. replace (wx - xcor t) with 0 by lra.
  apply atan2_origin.
Qed.

Lemma towards_west (t : Turtle) (wx wy : R) :
  ycor t = wy -> wx < xcor t -> towards t wx wy = PI.
Proof.
  intros Hy Hx. unfold towards. replace (wy - ycor t) with 0 by lra.
  apply atan2_west. lra.
Qed.

Lemma waypoint_coords_after_update (p : Player) (g : Game) :
  wp_x (waypoint (Player_update p g)) = wp_x (waypoint g) /\
  wp_y (waypoint (Player_update p g)) = wp_y (waypoint g).
Proof.
  unfold Player_update. rewrite waypoint_after_arrival_test.
  destruct (is_active (waypoint g)).
  - destruct (_ <? _); simpl; rewrite ?waypoint_after_arrival_test; auto.
  - rewrite waypoint_after_arrival_test. auto.
Qed.

(** X4.  A player of positive speed that stands exactly on the active
    waypoint does not stay there: the first update walks it [speed] units
    east (the angle to a point at distance 0 is 0) and leaves the waypoint
    active; the second update walks it back onto the waypoint and only then
    deactivates the waypoint. *)
Theorem player_on_waypoint_steps_away_and_back (p : Player) (g : Game) :
  is_active (waypoint g) = true ->
  Player_x p = wp_x (waypoint g) -> Player_y p = wp_y (waypoint g) ->
  0 < speed p ->
  exists p1 p2 : Player,
    player (Player_update p g) = Some p1 /\
    Player_x p1 = Player_x p + speed p /\ Player_y p1 = Player_y p /\
    is_active (waypoint (Player_update p g)) = true /\
    player (Player_update p1 (Player_update p g)) = Some p2 /\
    Player_x p2 = Player_x p /\ Player_y p2 = Player_y p /\
    is_active (waypoint (Player_update p1 (Player_update p g))) = false.
Proof.
  unfold Player_x, Player_y. intros Hact Hx Hy Hs.
  set (g1 := Player_update p g).
  set (p1 := mkPlayer (speed p)
                      (mkTurtle (xcor (turtle p) + speed p) (ycor (turtle p)) 0)).
  assert (Hp1 : player g1 = Some p1).
  { unfold g1. rewrite (player_after_update p g Hact).
    rewrite towards_here, forward_east by assumption. reflexivity. }
  assert (Hact1 : is_active (waypoint g1) = true).
  { unfold g1. rewrite (waypoint_after_update p g Hact).
    rewrite towards_here, forward_east by assumption.
    rewrite distance_level by (simpl; exact Hy). simpl.
    apply negb_true_iff. apply Rltb_false.
    rewrite <- Hx.
    replace (xcor (turtle p) - (xcor (turtle p) + speed p)) with (- speed p) by ring.
    rewrite Rabs_Ropp, Rabs_pos_eq; lra. }
  destruct (waypoint_coords_after_update p g) as [Hwx Hwy]. fold g1 in Hwx, Hwy.
  assert (Hwest : towards (turtle p1) (wp_x (waypoint g1)) (wp_y (waypoint g1)) = PI).
  { apply towards_west; simpl; lra. }
  set (t2 := forward (speed p1)
               (setheading (towards (turtle p1) (wp_x (waypoint g1))
                                    (wp_y (waypoint g1))) (turtle p1))).
  assert (Ht2 : xcor t2 = xcor (turtle p) /\ ycor t2 = ycor (turtle p)).
  { unfold t2. rewrite Hwest. simpl. rewrite cos_PI, sin_PI. split; ring. }
  destruct Ht2 as [Ht2x Ht2y].
  exists p1, (mkPlayer (speed p1) t2).
  split; [ exact Hp1 | ]. split; [ reflexivity | ]. split; [ reflexivity | ].
  split; [ exact Hact1 | ].
  split; [ apply (player_after_update p1 g1 Hact1) | ].
  split; [ exact Ht2x | ]. split; [ exact Ht2y | ].
  rewrite (waypoint_after_update p1 g1 Hact1). fold t2.
  apply negb_false_iff. apply Rltb_true.
  unfold distance. rewrite Ht2x, Ht2y, Hwx, Hwy, <- Hx, <- Hy.
  replace (xcor (turtle p) - xcor (turtle p)) with 0 by ring.
  replace (ycor (turtle p) - ycor (turtle p)) with 0 by ring.
  rewrite hypot_0_r, Rabs_R0. simpl. exact Hs.
Qed.

(** The player stands on the waypoint a click has just put under it. *)
Lemma player_on_waypoint_steps_away_and_back_witness :
  is_active (waypoint (on_click 50 300 arena)) = true /\ 0 < 5 /\
  exists p1 p2 : Player,
    player (Player_update (mkPlayer 5 (mkTurtle 50 300 0)) (on_click 50 300 arena))
    = Some p1 /\
    Player_x p1 = 50 + 5 /\
    player (Player_update p1 (Player_update (mkPlayer 5 (mkTurtle 50 300 0))
                                            (on_click 50 300 arena)))
    = Some p2 /\
    Player_x p2 = 50 /\ Player_y p2 = 300 /\
    is_active (waypoint (Player_update p1
                           (Player_update (mkPlayer 5 (mkTurtle 50 300 0))
                                          (on_click 50 300 arena)))) = false.
Proof.
  split; [ reflexivity | ]. split; [ lra | ].
  destruct (player_on_waypoint_steps_away_and_back
              (mkPlayer 5 (mkTurtle 50 300 0)) (on_click 50 300 arena)
              eq_refl eq_refl eq_refl)
    as (p1 & p2 & H1 & H2 & H3 & H4 & H5 & H6 & H7 & H8).
  - simpl. lra.
  - exists p1, p2. repeat split; assumption.
Defined.

(** ** The chasing enemy *)

Lemma ChasingEnemy_update_size (e : ChasingEnemy) (g : Game) :
  size (ce_base (fst (ChasingEnemy_update e g))) = size (ce_base e).
Proof.
  unfold ChasingEnemy_update. destruct (player g); [ | reflexivity ].
  destruct (_ <? _); reflexivity.
Qed.

Lemma chasing_distance_after_move (e : ChasingEnemy) (g : Game) (p : Player) :
  player g = Some p ->
  let d := hypot (Player_x p - e_x (ce_base e)) (Player_y p - e_y (ce_base e)) in
  size (ce_base e) <= d -> 0 < d ->
  let e' := fst (ChasingEnemy_update e g) in
  hypot (Player_x p - e_x (ce_base e')) (Player_y p - e_y (ce_base e'))
  = Rabs (d - 3).
Proof.
  intros Hp d Hd Hpos e'. unfold e'.
  pose proof (ChasingEnemy_update_move e g p Hp Hd) as Hup. cbv zeta in Hup.
  rewrite Hup. simpl.
  set (dx := Player_x p - e_x (ce_base e)) in *.
  set (dy := Player_y p - e_y (ce_base e)) in *.
  replace (Player_x p - (e_x (ce_base e) + 3 * cos (atan2 dy dx)))
    with (dx - 3 * cos (atan2 dy dx)) by (unfold dx; ring).
  replace (Player_y p - (e_y (ce_base e) + 3 * sin (atan2 dy dx)))
    with (dy - 3 * sin (atan2 dy dx)) by (unfold dy; ring).
  apply hypot_after_step. apply hypot_pos_inv. exact Hpos.
Qed.

(** X5.  An update of the chasing enemy that does not catch the player, at a
    distance [d > 0] from it, leaves the enemy at distance [|d - 3|] from
    where the player stands: 3 closer when [d >= 3], and past the player, at
    distance [3 - d], when [d < 3]. *)
Theorem chasing_enemy_closes_in (e : ChasingEnemy) (g : Game) (p : Player) :
  player g = Some p ->
  let d := hypot (Player_x p - e_x (ce_base e)) (Player_y p - e_y (ce_base e)) in
  size (ce_base e) <= d -> 0 < d ->
  let e' := fst (ChasingEnemy_update e g) in
  snd (ChasingEnemy_update e g) = g /\
  hypot (Player_x p - e_x (ce_base e')) (Player_y p - e_y (ce_base e'))
  = Rabs (d - 3).
Proof.
  intros Hp d Hd Hpos e'. split.
  - pose proof (ChasingEnemy_update_move e g p Hp Hd) as Hup. cbv zeta in Hup.
    rewrite Hup. reflexivity.
  - apply (chasing_distance_after_move e g p Hp Hd Hpos).
Qed.

(** The chasing enemy the generator places at (200, 200) and the player at
    its start (50, 300): the distance is the root of 32500. *)
Lemma arena_chase_distance :
  hypot (50 - 200) (300 - 200) < 200 /\ 20 <= hypot (50 - 200) (300 - 200).
Proof.
  unfold hypot. split.
  - apply Rlt_le_trans with (sqrt (200 * 200)).
    + apply sqrt_lt_1; lra.
    + rewrite sqrt_square; lra.
  - apply Rle_trans with (sqrt (20 * 20)).
    + rewrite sqrt_square; lra.
    + apply sqrt_le_1; lra.
Qed.

Lemma chasing_enemy_closes_in_witness :
  player arena = Some (mkPlayer 5 (mkTurtle 50 300 0)) /\
  snd (ChasingEnemy_update (mkChasing (mkEnemyBase 200 200 20 "blue")) arena) = arena.
Proof.
  split; [ reflexivity | ].
  destruct arena_chase_distance as [_ Hge].
  apply (chasing_enemy_closes_in (mkChasing (mkEnemyBase 200 200 20 "blue")) arena
           (mkPlayer 5 (mkTurtle 50 300 0)) eq_refl).
  - exact Hge.
  - unfold Player_x, Player_y. simpl. lra.
Defined.

Lemma chasing_run_catches (k : nat) :
  forall (e : ChasingEnemy) (g : Game) (p : Player),
    player g = Some p ->
    3 / 2 < size (ce_base e) ->
    hypot (Player_x p - e_x (ce_base e)) (Player_y p - e_y (ce_base e))
    < size (ce_base e) + 3 * INR k ->
    exists n : nat,
      (n <= k)%nat /\
      ChasingEnemy_update (chasing_run n e g) g
      = (chasing_run n e g, game_over_lose g).
Proof.
  induction k as [ | k IH]; intros e g p Hp Hsz Hd.
  - exists 0%nat. split; [ lia | ]. simpl in *.
    apply (ChasingEnemy_update_hit e g p Hp). lra.
  - set (d := hypot (Player_x p - e_x (ce_base e)) (Player_y p - e_y (ce_base e))) in *.
    destruct (Rlt_dec d (size (ce_base e))) as [Hhit | Hmiss].
    + exists 0%nat. split; [ lia | ]. simpl.
      apply (ChasingEnemy_update_hit e g p Hp Hhit).
    + assert (Hge : size (ce_base e) <= d) by lra.
      assert (Hpos : 0 < d) by lra.
      pose proof (chasing_distance_after_move e g p Hp Hge Hpos) as Hd1.
      cbv zeta in Hd1. fold d in Hd1.
      rewrite S_INR in Hd. pose proof (pos_INR k) as Hk.
      destruct (IH (fst (ChasingEnemy_update e g)) g p Hp) as (n & Hn & Hcatch).
      * rewrite ChasingEnemy_update_size. exact Hsz.
      * rewrite ChasingEnemy_update_size, Hd1.
        unfold Rabs. destruct (Rcase_abs (d - 3)); lra.
      * exists (S n). split; [ lia | ]. exact Hcatch.
Qed.

(** X6.  A chasing enemy whose size exceeds 1.5 catches a player that stands
    still: if the player is closer than [size + 3 * k], one of the first
    [k + 1] updates of the enemy ends with the Lose signal. *)
Theorem chasing_enemy_catches_standing_player
        (k : nat) (e : ChasingEnemy) (g : Game) (p : Player) :
  player g = Some p ->
  3 / 2 < size (ce_base e) ->
  hypot (Player_x p - e_x (ce_base e)) (Player_y p - e_y (ce_base e))
  < size (ce_base e) + 3 * INR k ->
  exists n : nat,
    (n <= k)%nat /\
    ChasingEnemy_update (chasing_run n e g) g
    = (chasing_run n e g, game_over_lose g) /\
    In Lose (signals (snd (ChasingEnemy_update (chasing_run n e g) g))).
Proof.
  intros Hp Hsz Hd.
  destruct (chasing_run_catches k e g p Hp Hsz Hd) as (n & Hn & Hcatch).
  exists n. split; [ exact Hn | ]. split; [ exact Hcatch | ].
  rewrite Hcatch. simpl. apply in_or_app. right. left. reflexivity.
Qed.

Lemma chasing_enemy_catches_standing_player_witness :
  player arena = Some (mkPlayer 5 (mkTurtle 50 300 0)) /\
  exists n : nat,
    (n <= 60)%nat /\
    ChasingEnemy_update
      (chasing_run n (mkChasing (mkEnemyBase 200 200 20 "blue")) arena) arena
    = (chasing_run n (mkChasing (mkEnemyBase 200 200 20 "blue")) arena,
       game_over_lose arena).
Proof.
  split; [ reflexivity | ].
  destruct (chasing_enemy_catches_standing_player 60
              (mkChasing (mkEnemyBase 200 200 20 "blue")) arena
              (mkPlayer 5 (mkTurtle 50 300 0)) eq_refl)
    as (n & Hn & Hcatch & _).
  - simpl. lra.
  - destruct arena_chase_distance as [Hlt _].
    unfold Player_x, Player_y. simpl turtle. simpl xcor. simpl ycor.
    simpl ce_base. simpl e_x. simpl e_y. simpl size.
    replace (INR 60) with 60 by (rewrite INR_IZR; reflexivity). lra.
  - exists n. split; assumption.
Defined.

(** X7.  The circular test of the chasing enemy reaches further than the box
    test the other enemies share: whenever [hits_player] holds for a chasing
    enemy, its update ends with the Lose signal. *)
Theorem circle_test_covers_box_test (e : ChasingEnemy) (g : Game) (p : Player) :
  player g = Some p ->
  hits_player (ce_base e) p = true ->
  ChasingEnemy_update e g = (e, game_over_lose g).
Proof.
  intros Hp Hhit. apply hits_player_spec in Hhit.
  apply (ChasingEnemy_update_hit e g p Hp).
  set (s := size (ce_base e)) in *.
  set (dx := Player_x p - e_x (ce_base e)).
  set (dy := Player_y p - e_y (ce_base e)).
  assert (Hx : - (s / 2) < dx < s / 2) by (unfold dx; lra).
  assert (Hy : - (s / 2) < dy < s / 2) by (unfold dy; lra).
  assert (Hs : 0 < s) by lra.
  unfold hypot. apply Rlt_le_trans with (sqrt (s * s)).
  - apply sqrt_lt_1; nra.
  - rewrite sqrt_square; lra.
Qed.

Lemma circle_test_covers_box_test_witness :
  player chased_game = Some (mkPlayer 5 (mkTurtle 205 205 0)) /\
  hits_player (mkEnemyBase 200 200 20 "blue") (mkPlayer 5 (mkTurtle 205 205 0)) = true /\
  ChasingEnemy_update (mkChasing (mkEnemyBase 200 200 20 "blue")) chased_game
  = (mkChasing (mkEnemyBase 200 200 20 "blue"), game_over_lose chased_game).
Proof.
  assert (Hhit : hits_player (mkEnemyBase 200 200 20 "blue")
                             (mkPlayer 5 (mkTurtle 205 205 0)) = true).
  { apply hits_player_spec. unfold Player_x, Player_y. simpl. lra. }
  split; [ reflexivity | split; [ exact Hhit | ] ].
  exact (circle_test_covers_box_test (mkChasing (mkEnemyBase 200 200 20 "blue"))
           chased_game (mkPlayer 5 (mkTurtle 205 205 0)) eq_refl Hhit).
Defined.

(** ** The reflecting enemies *)

Lemma cos_PI_minus (a : R) : cos (PI - a) = - cos a.
Proof. rewrite cos_minus, cos_PI, sin_PI. ring. Qed.

(** The cosine and the sine of the angle after the two reflections. *)
Lemma reflected_angle (vx lox hix vy loy hiy a : R) :
  let a1 := if (vx <? lox) || (hix <? vx) then PI - a else a in
  let a2 := if (vy <? loy) || (hiy <? vy) then - a1 else a1 in
  cos a2 = (if (vx <? lox) || (hix <? vx) then - cos a else cos a) /\
  sin a2 = (if (vy <? loy) || (hiy <? vy) then - sin a else sin a).
Proof.
  cbv zeta.
  destruct ((vx <? lox) || (hix <? vx)); destruct ((vy <? loy) || (hiy <? vy));
    rewrite ?cos_neg, ?sin_neg, ?cos_PI_minus, ?sin_PI_x; split; reflexivity.
Qed.

(** One step along an axis with the reflection at [lo] and [hi]. *)
Lemma near_range_step (lo hi v c c' : R) :
  near_range lo hi v c ->
  c' = (if (v + 3 * c <? lo) || (hi <? v + 3 * c) then - c else c) ->
  near_range lo hi (v + 3 * c) c'.
Proof.
  unfold near_range. intros Hn ->.
  destruct ((v + 3 * c <? lo) || (hi <? v + 3 * c)) eqn:Hout.
  - apply outside_true in Hout. destruct Hn as [Hin | Hin]; [ right | ]; lra.
  - apply outside_false in Hout. left. exact Hout.
Qed.

Lemma stuck_above_step (lo hi v c c' : R) :
  stuck_above hi v c ->
  c' = (if (v + 3 * c <? lo) || (hi <? v + 3 * c) then - c else c) ->
  stuck_above hi (v + 3 * c) c'.
Proof.
  unfold stuck_above. intros [Hv Hv'] ->.
  replace ((v + 3 * c <? lo) || (hi <? v + 3 * c)) with true
    by (symmetry; apply outside_true; right; exact Hv').
  lra.
Qed.

Lemma stuck_below_step (lo hi v c c' : R) :
  stuck_below lo v c ->
  c' = (if (v + 3 * c <? lo) || (hi <? v + 3 * c) then - c else c) ->
  stuck_below lo (v + 3 * c) c'.
Proof.
  unfold stuck_below. intros [Hv Hv'] ->.
  replace ((v + 3 * c <? lo) || (hi <? v + 3 * c)) with true
    by (symmetry; apply outside_true; left; exact Hv').
  lra.
Qed.

Lemma near_range_bound (lo hi v a : R) :
  near_range lo hi v (cos a) \/ near_range lo hi v (sin a) ->
  lo - 3 <= v <= hi + 3.
Proof.
  pose proof (COS_bound a). pose proof (SIN_bound a).
  unfold near_range. intros [[Hin | Hin] | [Hin | Hin]]; lra.
Qed.

(** An update of the random enemy either leaves it as it is (no player, or a
    hit) or moves it and reflects its velocity. *)
Lemma RandomEnemy_update_step (e : RandomEnemy) (g : Game) :
  let e' := fst (RandomEnemy_update e g) in
  let x' := e_x (re_base e) + 3 * cos (re_angle e) in
  let y' := e_y (re_base e) + 3 * sin (re_angle e) in
  e' = e \/
  (e_x (re_base e') = x' /\ e_y (re_base e') = y' /\
   cos (re_angle e')
   = (if (x' <? 0) || (IZR (screen_width g) <? x')
      then - cos (re_angle e) else cos (re_angle e)) /\
   sin (re_angle e')
   = (if (y' <? 0) || (IZR (screen_height g) <? y')
      then - sin (re_angle e) else sin (re_angle e))).
Proof.
  cbv zeta. destruct (player g) as [p | ] eqn:Hp.
  - destruct (hits_player (re_base e) p) eqn:Hhit.
    + left. unfold RandomEnemy_update. rewrite Hp, Hhit. reflexivity.
    + right. pose proof (RandomEnemy_update_no_hit e g p Hp Hhit) as Hup.
      cbv zeta in Hup. rewrite Hup. simpl.
      split; [ reflexivity | split; [ reflexivity | ] ].
      apply reflected_angle.
  - left. unfold RandomEnemy_update. rewrite Hp. reflexivity.
Qed.

Lemma FrontGateEnermy_update_step (e : FrontGateEnermy) (g : Game) :
  let e' := fst (FrontGateEnermy_update e g) in
  let sw := screen_width g in
  let sh := screen_height g in
  let x' := e_x (fg_base e) + 3 * cos (fg_angle e) in
  let y' := e_y (fg_base e) + 3 * sin (fg_angle e) in
  e' = e \/
  (e_x (fg_base e') = x' /\ e_y (fg_base e') = y' /\
   cos (fg_angle e')
   = (if (x' <? IZR (sw - sw / 4)) || (IZR sw <? x')
      then - cos (fg_angle e) else cos (fg_angle e)) /\
   sin (fg_angle e')
   = (if (y' <? IZR (sh / 3)) || (IZR (sh - sh / 3) <? y')
      then - sin (fg_angle e) else sin (fg_angle e))).
Proof.
  cbv zeta. destruct (player g) as [p | ] eqn:Hp.
  - destruct (hits_player (fg_base e) p) eqn:Hhit.
    + left. unfold FrontGateEnermy_update. rewrite Hp, Hhit. reflexivity.
    + right. pose proof (FrontGateEnermy_update_no_hit e g p Hp Hhit) as Hup.
      cbv zeta in Hup. rewrite Hup. simpl.
      split; [ reflexivity | split; [ reflexivity | ] ].
      apply reflected_angle.
  - left. unfold FrontGateEnermy_update. rewrite Hp. reflexivity.
Qed.

(** X8.  The reflection of the random enemy and of the gate guard is a
    bounce: in an update without a hit, the x component of the velocity
    ([cos] of the angle) is reversed exactly when the new x is outside the
    enemy's x range and kept otherwise, and the y component ([sin]) is
    reversed exactly when the new y is outside its y range and kept
    otherwise; neither reflection touches the other component. *)
Theorem reflection_reverses_one_velocity_component :
  (forall (e : RandomEnemy) (g : Game) (p : Player),
     player g = Some p -> hits_player (re_base e) p = false ->
     let e' := fst (RandomEnemy_update e g) in
     let x' := e_x (re_base e') in
     let y' := e_y (re_base e') in
     let W := IZR (screen_width g) in
     let H := IZR (screen_height g) in
     (x' < 0 \/ W < x' -> cos (re_angle e') = - cos (re_angle e)) /\
     (0 <= x' <= W -> cos (re_angle e') = cos (re_angle e)) /\
     (y' < 0 \/ H < y' -> sin (re_angle e') = - sin (re_angle e)) /\
     (0 <= y' <= H -> sin (re_angle e') = sin (re_angle e)))
  /\
  (forall (e : FrontGateEnermy) (g : Game) (p : Player),
     player g = Some p -> hits_player (fg_base e) p = false ->
     let e' := fst (FrontGateEnermy_update e g) in
     let x' := e_x (fg_base e') in
     let y' := e_y (fg_base e') in
     let sw := screen_width g in
     let sh := screen_height g in
     (x' < IZR (sw - sw / 4) \/ IZR sw < x' ->
      cos (fg_angle e') = - cos (fg_angle e)) /\
     (IZR (sw - sw / 4) <= x' <= IZR sw -> cos (fg_angle e') = cos (fg_angle e)) /\
     (y' < IZR (sh / 3) \/ IZR (sh - sh / 3) < y' ->
      sin (fg_angle e') = - sin (fg_angle e)) /\
     (IZR (sh / 3) <= y' <= IZR (sh - sh / 3) ->
      sin (fg_angle e') = sin (fg_angle e))).
Proof.
  split.
  - intros e g p Hp Hhit. cbv zeta.
    pose proof (RandomEnemy_update_no_hit e g p Hp Hhit) as Hup. cbv zeta in Hup.
    rewrite Hup. simpl.
    set (x' := e_x (re_base e) + 3 * cos (re_angle e)).
    set (y' := e_y (re_base e) + 3 * sin (re_angle e)).
    destruct (reflected_angle x' 0 (IZR (screen_width g)) y' 0
                (IZR (screen_height g)) (re_angle e)) as [Hc Hs].
    rewrite Hc, Hs.
    destruct (reflection_cases x' 0 (IZR (screen_width g))
                (cos (re_angle e)) (- cos (re_angle e))) as [Hx1 Hx2].
    destruct (reflection_cases y' 0 (IZR (screen_height g))
                (sin (re_angle e)) (- sin (re_angle e))) as [Hy1 Hy2].
    repeat split; assumption.
  - intros e g p Hp Hhit. cbv zeta.
    pose proof (FrontGateEnermy_update_no_hit e g p Hp Hhit) as Hup.
    cbv zeta in Hup. rewrite Hup. simpl.
    set (sw := screen_width g). set (sh := screen_height g).
    set (x' := e_x (fg_base e) + 3 * cos (fg_angle e)).
    set (y' := e_y (fg_base e) + 3 * sin (fg_angle e)).
    destruct (reflected_angle x' (IZR (sw - sw / 4)) (IZR sw) y' (IZR (sh / 3))
                (IZR (sh - sh / 3)) (fg_angle e)) as [Hc Hs].
    rewrite Hc, Hs.
    destruct (reflection_cases x' (IZR (sw - sw / 4)) (IZR sw)
                (cos (fg_angle e)) (- cos (fg_angle e))) as [Hx1 Hx2].
    destruct (reflection_cases y' (IZR (sh / 3)) (IZR (sh - sh / 3))
                (sin (fg_angle e)) (- sin (fg_angle e))) as [Hy1 Hy2].
    repeat split; assumption.
Qed.

Lemma stray_enemy_no_hit :
  hits_player (re_base stray_enemy) (mkPlayer 5 (mkTurtle 50 250 0)) = false.
Proof.
  apply not_true_is_false. intros Hh. apply hits_player_spec in Hh.
  unfold Player_x, Player_y in Hh. simpl in Hh. lra.
Qed.

Lemma reflection_reverses_one_velocity_component_witness :
  player gate_game = Some (mkPlayer 5 (mkTurtle 50 250 0)) /\
  hits_player (re_base stray_enemy) (mkPlayer 5 (mkTurtle 50 250 0)) = false /\
  cos (re_angle (fst (RandomEnemy_update stray_enemy gate_game)))
  = - cos (re_angle stray_enemy).
Proof.
  split; [ reflexivity | split; [ exact stray_enemy_no_hit | ] ].
  apply (proj1 reflection_reverses_one_velocity_component stray_enemy gate_game
               (mkPlayer 5 (mkTurtle 50 250 0)) eq_refl stray_enemy_no_hit).
  right.
  rewrite (RandomEnemy_update_no_hit stray_enemy gate_game
             (mkPlayer 5 (mkTurtle 50 250 0)) eq_refl stray_enemy_no_hit).
  simpl. rewrite cos_0. lra.
Defined.

(** The sessions of a list all have the screen [W] by [H]. *)
Lemma random_run_near_range (gs : list Game) (W H : Z) :
  Forall (fun g => screen_width g = W /\ screen_height g = H) gs ->
  forall e : RandomEnemy,
    near_range 0 (IZR W) (e_x (re_base e)) (cos (re_angle e)) ->
    near_range 0 (IZR H) (e_y (re_base e)) (sin (re_angle e)) ->
    near_range 0 (IZR W) (e_x (re_base (random_run gs e)))
               (cos (re_angle (random_run gs e))) /\
    near_range 0 (IZR H) (e_y (re_base (random_run gs e)))
               (sin (re_angle (random_run gs e))).
Proof.
  induction 1 as [ | g rest [HW HH] _ IH]; intros e Hx Hy; simpl.
  - split; assumption.
  - destruct (RandomEnemy_update_step e g) as [Hsame | (Hx' & Hy' & Hc & Hs)].
    + rewrite Hsame. apply IH; assumption.
    + rewrite HW in Hc. rewrite HH in Hs. apply IH.
      * rewrite Hx'. apply (near_range_step _ _ _ _ _ Hx Hc).
      * rewrite Hy'. apply (near_range_step _ _ _ _ _ Hy Hs).
Qed.

(** X9.  The random walk is bounded: a random enemy that is on the screen
    is never more than one step (3 units) off the screen afterwards, however
    many updates it goes through, with or without hits, on sessions of that
    screen size. *)
Theorem random_enemy_stays_near_screen
        (gs : list Game) (W H : Z) (e : RandomEnemy) :
  Forall (fun g => screen_width g = W /\ screen_height g = H) gs ->
  0 <= e_x (re_base e) <= IZR W ->
  0 <= e_y (re_base e) <= IZR H ->
  -3 <= e_x (re_base (random_run gs e)) <= IZR W + 3 /\
  -3 <= e_y (re_base (random_run gs e)) <= IZR H + 3.
Proof.
  intros Hgs Hx Hy.
  destruct (random_run_near_range gs W H Hgs e) as [Hx' Hy'].
  - left. exact Hx.
  - left. exact Hy.
  - pose proof (near_range_bound 0 (IZR W) _ _ (or_introl Hx')) as Bx.
    pose proof (near_range_bound 0 (IZR H) _ _ (or_intror Hy')) as By.
    lra.
Qed.

Lemma random_enemy_stays_near_screen_witness :
  Forall (fun g => screen_width g = 800%Z /\ screen_height g = 500%Z)
         [gate_game; gate_game; gate_game] /\
  -3 <= e_x (re_base (random_run [gate_game; gate_game; gate_game]
                                 (mkRandom (mkEnemyBase 100 100 20 "red") 45)))
     <= 800 + 3.
Proof.
  assert (Hgs : Forall (fun g => screen_width g = 800%Z /\ screen_height g = 500%Z)
                       [gate_game; gate_game; gate_game]).
  { repeat constructor. }
  split; [ exact Hgs | ].
  apply (random_enemy_stays_near_screen [gate_game; gate_game; gate_game] 800 500
           (mkRandom (mkEnemyBase 100 100 20 "red") 45) Hgs); simpl; lra.
Defined.

Lemma gate_run_near_range (gs : list Game) (W H : Z) :
  Forall (fun g => screen_width g = W /\ screen_height g = H) gs ->
  forall e : FrontGateEnermy,
    near_range (IZR (W - W / 4)) (IZR W) (e_x (fg_base e)) (cos (fg_angle e)) ->
    near_range (IZR (H / 3)) (IZR (H - H / 3)) (e_y (fg_base e)) (sin (fg_angle e)) ->
    near_range (IZR (W - W / 4)) (IZR W) (e_x (fg_base (gate_run gs e)))
               (cos (fg_angle (gate_run gs e))) /\
    near_range (IZR (H / 3)) (IZR (H - H / 3)) (e_y (fg_base (gate_run gs e)))
               (sin (fg_angle (gate_run gs e))).
Proof.
  induction 1 as [ | g rest [HW HH] _ IH]; intros e Hx Hy; simpl.
  - split; assumption.
  - destruct (FrontGateEnermy_update_step e g) as [Hsame | (Hx' & Hy' & Hc & Hs)].
    + rewrite Hsame. apply IH; assumption.
    + rewrite HW in Hc. rewrite HH in Hs. apply IH.
      * rewrite Hx'. apply (near_range_step _ _ _ _ _ Hx Hc).
      * rewrite Hy'. apply (near_range_step _ _ _ _ _ Hy Hs).
Qed.

(** X10.  The gate guard is confined without being clamped: once inside the
    gate region [[W - W // 4, W]] by [[H // 3, H - H // 3]] it is never more
    than one step (3 units) outside of it afterwards, however many updates
    it goes through on sessions of that screen size. *)
Theorem gate_guard_stays_near_gate
        (gs : list Game) (W H : Z) (e : FrontGateEnermy) :
  Forall (fun g => screen_width g = W /\ screen_height g = H) gs ->
  IZR (W - W / 4) <= e_x (fg_base e) <= IZR W ->
  IZR (H / 3) <= e_y (fg_base e) <= IZR (H - H / 3) ->
  IZR (W - W / 4) - 3 <= e_x (fg_base (gate_run gs e)) <= IZR W + 3 /\
  IZR (H / 3) - 3 <= e_y (fg_base (gate_run gs e)) <= IZR (H - H / 3) + 3.
Proof.
  intros Hgs Hx Hy.
  destruct (gate_run_near_range gs W H Hgs e) as [Hx' Hy'].
  - left. exact Hx.
  - left. exact Hy.
  - pose proof (near_range_bound _ _ _ _ (or_introl Hx')) as Bx.
    pose proof (near_range_bound _ _ _ _ (or_intror Hy')) as By.
    lra.
Qed.

(** The gate guard where the generator puts it on a screen of 800 by 500. *)
Lemma gate_guard_stays_near_gate_witness :
  Forall (fun g => screen_width g = 800%Z /\ screen_height g = 500%Z)
         [gate_game; gate_game] /\
  600 - 3 <= e_x (fg_base (gate_run [gate_game; gate_game]
                                    (mkFrontGate (mkEnemyBase 700 250 20 "pink") 45)))
          <= 800 + 3.
Proof.
  assert (Hgs : Forall (fun g => screen_width g = 800%Z /\ screen_height g = 500%Z)
                       [gate_game; gate_game]).
  { repeat constructor. }
  split; [ exact Hgs | ].
  apply (gate_guard_stays_near_gate [gate_game; gate_game] 800 500
           (mkFrontGate (mkEnemyBase 700 250 20 "pink") 45) Hgs).
  - change (IZR (800 - 800 / 4)) with 600. simpl. lra.
  - change (IZR (500 / 3)) with 166. change (IZR (500 - 500 / 3)) with 334.
    simpl. lra.
Defined.

Lemma random_run_stuck_right (gs : list Game) (W : Z) :
  Forall (fun g => screen_width g = W) gs ->
  forall e : RandomEnemy,
    stuck_above (IZR W) (e_x (re_base e)) (cos (re_angle e)) ->
    stuck_above (IZR W) (e_x (re_base (random_run gs e)))
                (cos (re_angle (random_run gs e))).
Proof.
  induction 1 as [ | g rest HW _ IH]; intros e Hx; simpl.
  - exact Hx.
  - destruct (RandomEnemy_update_step e g) as [Hsame | (Hx' & _ & Hc & _)].
    + rewrite Hsame. apply IH; assumption.
    + rewrite HW in Hc. apply IH.
      rewrite Hx'. apply (stuck_above_step _ _ _ _ _ Hx Hc).
Qed.

Lemma random_run_stuck_left (gs : list Game) :
  forall e : RandomEnemy,
    stuck_below 0 (e_x (re_base e)) (cos (re_angle e)) ->
    stuck_below 0 (e_x (re_base (random_run gs e)))
                (cos (re_angle (random_run gs e))).
Proof.
  induction gs as [ | g rest IH]; intros e Hx; simpl.
  - exact Hx.
  - destruct (RandomEnemy_update_step e g) as [Hsame | (Hx' & _ & Hc & _)].
    + rewrite Hsame. apply IH; assumption.
    + apply IH. rewrite Hx'. apply (stuck_below_step _ _ _ _ _ Hx Hc).
Qed.

(** X11.  The reflection does not bring back an enemy that is far out: a
    random enemy more than one step (3 units) beyond the right edge of the
    screen, or beyond the left edge, stays beyond that edge through every
    later update, its x velocity being reversed in each update that moves
    it. *)
Theorem random_enemy_far_out_never_returns
        (gs : list Game) (W : Z) (e : RandomEnemy) :
  Forall (fun g => screen_width g = W) gs ->
  (IZR W + 3 < e_x (re_base e) -> IZR W < e_x (re_base (random_run gs e))) /\
  (e_x (re_base e) < -3 -> e_x (re_base (random_run gs e)) < 0).
Proof.
  intros Hgs. pose proof (COS_bound (re_angle e)) as Hc. split; intros Hx.
  - apply (random_run_stuck_right gs W Hgs e). unfold stuck_above. lra.
  - apply (random_run_stuck_left gs e). unfold stuck_below. lra.
Qed.

Lemma random_enemy_far_out_never_returns_witness :
  Forall (fun g => screen_width g = 800%Z) [gate_game; gate_game; gate_game] /\
  800 + 3 < 900 /\
  800 < e_x (re_base (random_run [gate_game; gate_game; gate_game]
                                 (mkRandom (mkEnemyBase 900 100 20 "red") 45))).
Proof.
  assert (Hgs : Forall (fun g => screen_width g = 800%Z)
                       [gate_game; gate_game; gate_game]).
  { repeat constructor. }
  split; [ exact Hgs | ]. split; [ lra | ].
  apply (proj1 (random_enemy_far_out_never_returns
                  [gate_game; gate_game; gate_game] 800
                  (mkRandom (mkEnemyBase 900 100 20 "red") 45) Hgs)).
  simpl. lra.
Defined.

(** ** The patrol of the fencing enemy *)

Lemma INR_le_IZR (n : nat) (z : Z) : (Z.of_nat n <= z)%Z -> INR n <= IZR z.
Proof. intros H. rewrite INR_IZR. apply IZR_le. exact H. Qed.

Lemma INR_ge_IZR (n : nat) (z : Z) : (z <= Z.of_nat n)%Z -> IZR z <= INR n.
Proof. intros H. rewrite INR_IZR. apply IZR_le. exact H. Qed.

Lemma INR_minus_const (n c : nat) :
  (c <= n)%nat -> INR (n - c) = INR n - IZR (Z.of_nat c).
Proof. intros H. rewrite minus_INR by exact H. rewrite (INR_IZR c). reflexivity. Qed.

Lemma fencing_ext (x y x' y' sz : R) (col : string) (st st' : Z)
      (hx hy sl : R) (cs : list (R * R)) :
  x = x' -> y = y' -> st = st' ->
  mkFencing (mkEnemyBase x y sz col) st hx hy sl cs
  = mkFencing (mkEnemyBase x' y' sz col) st' hx hy sl cs.
Proof. intros -> -> ->. reflexivity. Qed.

(** The four sides of the loop, as equations of [patrol_enemy]. *)
Lemma patrol_enemy_side0 (hx hy sz : R) (col : string) (n : nat) :
  (n < 50)%nat ->
  patrol_enemy hx hy sz col n
  = mkFencing (mkEnemyBase (hx - 50 + 2 * INR n) (hy - 50) sz col) 0 hx hy 100
              (patrol_corners hx hy).
Proof.
  intros H. unfold patrol_enemy, patrol_state.
  rewrite (proj2 (Nat.ltb_lt n 50)) by lia. reflexivity.
Qed.

Lemma patrol_enemy_side1 (hx hy sz : R) (col : string) (n : nat) :
  (50 <= n < 100)%nat ->
  patrol_enemy hx hy sz col n
  = mkFencing (mkEnemyBase (hx + 50) (hy - 50 + 2 * INR (n - 50)) sz col) 1 hx hy 100
              (patrol_corners hx hy).
Proof.
  intros H. unfold patrol_enemy, patrol_state.
  rewrite (proj2 (Nat.ltb_ge n 50)) by lia.
  rewrite (proj2 (Nat.ltb_lt n 100)) by lia. reflexivity.
Qed.

Lemma patrol_enemy_side2 (hx hy sz : R) (col : string) (n : nat) :
  (100 <= n < 150)%nat ->
  patrol_enemy hx hy sz col n
  = mkFencing (mkEnemyBase (hx + 50 - 2 * INR (n - 100)) (hy + 50) sz col) 2 hx hy 100
              (patrol_corners hx hy).
Proof.
  intros H. unfold patrol_enemy, patrol_state.
  rewrite (proj2 (Nat.ltb_ge n 50)) by lia.
  rewrite (proj2 (Nat.ltb_ge n 100)) by lia.
  rewrite (proj2 (Nat.ltb_lt n 150)) by lia. reflexivity.
Qed.

Lemma patrol_enemy_side3 (hx hy sz : R) (col : string) (n : nat) :
  (150 <= n)%nat ->
  patrol_enemy hx hy sz col n
  = mkFencing (mkEnemyBase (hx - 50) (hy + 50 - 2 * INR (n - 150)) sz col) 3 hx hy 100
              (patrol_corners hx hy).
Proof.
  intros H. unfold patrol_enemy, patrol_state.
  rewrite (proj2 (Nat.ltb_ge n 50)) by lia.
  rewrite (proj2 (Nat.ltb_ge n 100)) by lia.
  rewrite (proj2 (Nat.ltb_ge n 150)) by lia. reflexivity.
Qed.

(** Along the loop the enemy never covers a player that is clear of the
    patrol. *)
Lemma patrol_no_hit (hx hy sz : R) (col : string) (n : nat) (p : Player) :
  (n < 200)%nat -> clear_of_patrol hx hy sz p ->
  hits_player (fe_base (patrol_enemy hx hy sz col n)) p = false.
Proof.
  intros Hn Hclear. apply not_true_is_false. intros Hhit.
  apply hits_player_spec in Hhit. unfold clear_of_patrol in Hclear.
  destruct (Nat.lt_ge_cases n 50) as [H0 | H0];
    [ | destruct (Nat.lt_ge_cases n 100) as [H1 | H1];
        [ | destruct (Nat.lt_ge_cases n 150) as [H2 | H2] ] ].
  - rewrite patrol_enemy_side0 in Hhit by lia. simpl in Hhit.
    pose proof (pos_INR n) as Hlo.
    assert (Hhi : INR n <= 49) by (apply INR_le_IZR; lia). lra.
  - rewrite patrol_enemy_side1 in Hhit by lia. simpl in Hhit.
    pose proof (pos_INR (n - 50)) as Hlo.
    assert (Hhi : INR (n - 50) <= 49) by (apply INR_le_IZR; lia). lra.
  - rewrite patrol_enemy_side2 in Hhit by lia. simpl in Hhit.
    pose proof (pos_INR (n - 100)) as Hlo.
    assert (Hhi : INR (n - 100) <= 49) by (apply INR_le_IZR; lia). lra.
  - rewrite patrol_enemy_side3 in Hhit by lia. simpl in Hhit.
    pose proof (pos_INR (n - 150)) as Hlo.
    assert (Hhi : INR (n - 150) <= 49) by (apply INR_le_IZR; lia). lra.
Qed.

(** Decide the comparison of the goal from the hypotheses. *)
Ltac decide_leb :=
  match goal with
  | |- context [?a <=? ?b] =>
      first [ replace (a <=? b) with true by (symmetry; apply Rleb_true; lra)
            | replace (a <=? b) with false by (symmetry; apply Rleb_false; lra) ]
  end.

(** One update without a hit moves the enemy one index along the loop. *)
Lemma patrol_step (hx hy sz : R) (col : string) (n : nat) (g : Game) (p : Player) :
  (n < 200)%nat -> player g = Some p ->
  hits_player (fe_base (patrol_enemy hx hy sz col n)) p = false ->
  fst (FencingEnemy_update (patrol_enemy hx hy sz col n) g)
  = patrol_enemy hx hy sz col (patrol_next n).
Proof.
  intros Hn Hp Hhit. unfold patrol_next.
  destruct (Nat.eq_dec n 199) as [H199 | H199].
  - subst n. simpl Nat.eqb. cbv iota.
    rewrite patrol_enemy_side3 in * by lia. rewrite patrol_enemy_side0 by lia.
    assert (Hi : INR (199 - 150) = 49) by (rewrite INR_IZR; reflexivity).
    rewrite Hi in *. change (INR 0) with 0.
    unfold FencingEnemy_update. rewrite Hp, Hhit. simpl.
    decide_leb. simpl. apply fencing_ext; [ lra | lra | reflexivity ].
  - rewrite (proj2 (Nat.eqb_neq (S n) 200)) by lia.
    destruct (Nat.lt_ge_cases n 50) as [H0 | H0];
      [ | destruct (Nat.lt_ge_cases n 100) as [H1 | H1];
          [ | destruct (Nat.lt_ge_cases n 150) as [H2 | H2] ] ].
    + rewrite patrol_enemy_side0 in * by lia.
      unfold FencingEnemy_update. rewrite Hp, Hhit. simpl.
      pose proof (pos_INR n) as Hlo.
      destruct (Nat.eq_dec n 49) as [H49 | H49].
      * assert (Hi : INR n = 49) by (subst n; rewrite INR_IZR; reflexivity).
        rewrite patrol_enemy_side1 by lia.
        assert (Hj : INR (S n - 50) = 0) by (subst n; reflexivity).
        rewrite Hj. decide_leb. simpl.
        apply fencing_ext; [ lra | lra | reflexivity ].
      * assert (Hi : INR n <= 48) by (apply INR_le_IZR; lia).
        rewrite patrol_enemy_side0 by lia. rewrite S_INR. decide_leb. simpl.
        apply fencing_ext; [ lra | lra | reflexivity ].
    + rewrite patrol_enemy_side1 in * by lia.
      unfold FencingEnemy_update. rewrite Hp, Hhit. simpl.
      pose proof (pos_INR (n - 50)) as Hlo.
      destruct (Nat.eq_dec n 99) as [H99 | H99].
      * assert (Hi : INR (n - 50) = 49) by (subst n; rewrite INR_IZR; reflexivity).
        rewrite patrol_enemy_side2 by lia.
        assert (Hj : INR (S n - 100) = 0) by (subst n; reflexivity).
        rewrite Hj. decide_leb. simpl.
        apply fencing_ext; [ lra | lra | reflexivity ].
      * assert (Hi : INR (n - 50) <= 48) by (apply INR_le_IZR; lia).
        rewrite patrol_enemy_side1 by lia.
        replace (S n - 50)%nat with (S (n - 50)) by lia. rewrite S_INR.
        decide_leb. simpl. apply fencing_ext; [ lra | lra | reflexivity ].
    + rewrite patrol_enemy_side2 in * by lia.
      unfold FencingEnemy_update. rewrite Hp, Hhit. simpl.
      pose proof (pos_INR (n - 100)) as Hlo.
      destruct (Nat.eq_dec n 149) as [H149 | H149].
      * assert (Hi : INR (n - 100) = 49) by (subst n; rewrite INR_IZR; reflexivity).
        rewrite patrol_enemy_side3 by lia.
        assert (Hj : INR (S n - 150) = 0) by (subst n; reflexivity).
        rewrite Hj. decide_leb. simpl.
        apply fencing_ext; [ lra | lra | reflexivity ].
      * assert (Hi : INR (n - 100) <= 48) by (apply INR_le_IZR; lia).
        rewrite patrol_enemy_side2 by lia.
        replace (S n - 100)%nat with (S (n - 100)) by lia. rewrite S_INR.
        decide_leb. simpl. apply fencing_ext; [ lra | lra | reflexivity ].
    + rewrite patrol_enemy_side3 in * by lia.
      unfold FencingEnemy_update. rewrite Hp, Hhit. simpl.
      pose proof (pos_INR (n - 150)) as Hlo.
      assert (Hi : INR (n - 150) <= 48) by (apply INR_le_IZR; lia).
      rewrite (patrol_enemy_side3 hx hy sz col (S n)) by lia.
      replace (S n - 150)%nat with (S (n - 150)) by lia. rewrite S_INR.
      decide_leb. simpl. apply fencing_ext; [ lra | lra | reflexivity ].
Qed.

Lemma patrol_next_lt (n : nat) : (n < 200)%nat -> (patrol_next n < 200)%nat.
Proof.
  intros H. unfold patrol_next.
  destruct (Nat.eqb_spec (S n) 200); lia.
Qed.

Lemma patrol_next_mod (n l : nat) :
  (n < 200)%nat -> ((patrol_next n + l) mod 200 = (n + S l) mod 200)%nat.
Proof.
  intros H. unfold patrol_next.
  destruct (Nat.eqb_spec (S n) 200) as [E | E].
  - replace (n + S l)%nat with (l + 1 * 200)%nat by lia.
    rewrite Nat.Div0.mod_add. reflexivity.
  - f_equal. lia.
Qed.

Lemma patrol_enemy_start (hx hy sz : R) (col : string) :
  patrol_enemy hx hy sz col 0
  = mkFencing (mkEnemyBase (hx - 50) (hy - 50) sz col) 0 hx hy 100
              (patrol_corners hx hy).
Proof.
  rewrite patrol_enemy_side0 by lia. apply fencing_ext; simpl; try reflexivity; lra.
Qed.

(** From any index of the loop, the enemy is [length gs] indices further
    after one update in each session of [gs], provided the player of each is
    clear of the patrol. *)
Lemma fencing_run_patrol (hx hy sz : R) (col : string) (gs : list Game) :
  Forall (fun g => exists p, player g = Some p /\ clear_of_patrol hx hy sz p) gs ->
  forall n : nat,
    (n < 200)%nat ->
    fencing_run gs (patrol_enemy hx hy sz col n)
    = patrol_enemy hx hy sz col ((n + List.length gs) mod 200).
Proof.
  induction 1 as [ | g rest (p & Hp & Hclear) _ IH]; intros n Hn;
    cbn [fencing_run List.length].
  - rewrite Nat.add_0_r, Nat.mod_small by exact Hn. reflexivity.
  - rewrite (patrol_step hx hy sz col n g p Hn Hp)
      by (apply patrol_no_hit; assumption).
    rewrite IH by (apply patrol_next_lt; exact Hn).
    rewrite patrol_next_mod by exact Hn. reflexivity.
Qed.

(** X12.  The patrol is a closed loop of 200 updates.  A fencing enemy that
    starts in phase 0 on the top left corner of its patrol square, updated in
    sessions whose player is clear of the patrol (so that no update is a
    hit), stands after [n] updates at index [n mod 200] of the loop, 50
    steps of 2 per side; after 200 updates it is back on the corner in
    phase 0, exactly as it started. *)
Theorem fencing_enemy_walks_closed_loop
        (hx hy sz : R) (col : string) (gs : list Game) :
  Forall (fun g => exists p, player g = Some p /\ clear_of_patrol hx hy sz p) gs ->
  let start := mkFencing (mkEnemyBase (hx - 50) (hy - 50) sz col) 0 hx hy 100
                         (patrol_corners hx hy) in
  fencing_run gs start = patrol_enemy hx hy sz col (List.length gs mod 200) /\
  (List.length gs = 200%nat -> fencing_run gs start = start).
Proof.
  intros Hgs start. unfold start. rewrite <- patrol_enemy_start.
  pose proof (fencing_run_patrol hx hy sz col gs Hgs 0%nat) as Hrun.
  rewrite Nat.add_0_l in Hrun. split.
  - apply Hrun. lia.
  - intros Hlen. rewrite Hrun by lia. rewrite Hlen. reflexivity.
Qed.

Lemma gate_game_clear :
  exists p, player gate_game = Some p /\ clear_of_patrol 700 250 20 p.
Proof.
  exists (mkPlayer 5 (mkTurtle 50 250 0)). split; [ reflexivity | ].
  unfold clear_of_patrol, Player_x, Player_y. simpl. lra.
Qed.

Lemma fencing_enemy_walks_closed_loop_witness :
  Forall (fun g => exists p, player g = Some p /\ clear_of_patrol 700 250 20 p)
         (repeat gate_game 200) /\
  fencing_run (repeat gate_game 200)
              (mkFencing (mkEnemyBase (700 - 50) (250 - 50) 20 "orange") 0 700 250 100
                         (patrol_corners 700 250))
  = mkFencing (mkEnemyBase (700 - 50) (250 - 50) 20 "orange") 0 700 250 100
              (patrol_corners 700 250).
Proof.
  assert (Hgs : Forall (fun g => exists p, player g = Some p
                                           /\ clear_of_patrol 700 250 20 p)
                       (repeat gate_game 200)).
  { apply Forall_forall. intros g Hin. apply repeat_spec in Hin. subst g.
    exact gate_game_clear. }
  split; [ exact Hgs | ].
  apply (proj2 (fencing_enemy_walks_closed_loop 700 250 20 "orange"
                  (repeat gate_game 200) Hgs)).
  apply repeat_length.
Defined.

(** X13.  A player that has arrived home is out of the fencing enemy's
    reach: when the home and the enemy's box together are no wider than the
    patrol square ([home size + enemy size <= 100], as with the sizes 20 and
    20 of the program), an enemy anywhere on its loop around the home does
    not hit a player inside the home; its update emits nothing and takes it
    to the next index of the loop. *)
Theorem fencing_enemy_spares_player_at_home
        (sz : R) (col : string) (n : nat) (g : Game) (p : Player) :
  player g = Some p ->
  contains (home g) (Player_x p) (Player_y p) = true ->
  home_size (home g) + sz <= 100 ->
  (n < 200)%nat ->
  let hx := home_x (home g) in
  let hy := home_y (home g) in
  hits_player (fe_base (patrol_enemy hx hy sz col n)) p = false /\
  FencingEnemy_update (patrol_enemy hx hy sz col n) g
  = (patrol_enemy hx hy sz col (patrol_next n), g).
Proof.
  intros Hp Hin Hsz Hn hx hy.
  assert (Hclear : clear_of_patrol hx hy sz p).
  { apply contains_spec in Hin. fold hx hy in Hin. unfold clear_of_patrol.
    left. lra. }
  pose proof (patrol_no_hit hx hy sz col n p Hn Hclear) as Hhit.
  split; [ exact Hhit | ].
  pose proof (patrol_step hx hy sz col n g p Hn Hp Hhit) as Hfst.
  pose proof (FencingEnemy_update_no_hit _ g p Hp Hhit) as Hsnd.
  destruct (FencingEnemy_update (patrol_enemy hx hy sz col n) g) as [e' g'].
  simpl in *. congruence.
Qed.

Lemma fencing_enemy_spares_player_at_home_witness :
  player arrived_game = Some arrived_player /\
  contains (home arrived_game) (Player_x arrived_player) (Player_y arrived_player)
  = true /\
  hits_player (fe_base (patrol_enemy 700 300 20 "orange" 75)) arrived_player = false.
Proof.
  assert (Hin : contains (home arrived_game) (Player_x arrived_player)
                         (Player_y arrived_player) = true).
  { apply contains_spec. unfold Player_x, Player_y. simpl. lra. }
  split; [ reflexivity | split; [ exact Hin | ] ].
  refine (proj1 (fencing_enemy_spares_player_at_home 20 "orange" 75 arrived_game
                   arrived_player eq_refl Hin _ _)).
  - simpl. lra.
  - lia.
Defined.

(** ** The generator and the element collection *)

(** X14.  Whatever the screen size, the generator of a new session places
    the fencing enemy in phase 0 on the top left corner of the patrol square
    around the home (so that its patrol is the closed loop above), and the
    gate guard on the very centre of the home; the random enemy starts at
    (100, 100) and the chasing enemy at (200, 200), all of size 20, after
    the waypoint, the home and the player in the element collection. *)
Theorem generator_places_enemies_around_home (w h lvl : Z) (g0 : Game) :
  new_game w h lvl = Returned g0 ->
  exists (gen : EnemyGenerator) (g1 : Game),
    pending g0 = [CreateEnemy gen] /\
    create_enemy gen g0 = Returned g1 /\
    home g1 = mkHome (IZR (w - 100)) (IZR (h / 2)) 20 /\
    elements g1
    = [ElWaypoint; ElHome; ElPlayer;
       ElEnemy (ERandom (mkRandom (mkEnemyBase 100 100 20 "red") 45));
       ElEnemy (EChasing (mkChasing (mkEnemyBase 200 200 20 "blue")));
       ElEnemy (EFencing
                  (mkFencing (mkEnemyBase (home_x (home g1) - 50)
                                          (home_y (home g1) - 50) 20 "orange")
                             0 (home_x (home g1)) (home_y (home g1)) 100
                             (patrol_corners (home_x (home g1)) (home_y (home g1)))));
       ElEnemy (EFrontGate
                  (mkFrontGate (mkEnemyBase (home_x (home g1)) (home_y (home g1))
                                            20 "pink") 45))].
Proof.
  unfold new_game. simpl. intros Hnew. injection Hnew as <-.
  eexists. eexists. split; [ reflexivity | ]. split; [ reflexivity | ].
  split; [ reflexivity | ]. simpl.
  assert (Hx : IZR (w - 150) = IZR (w - 100) - 50)
    by (rewrite !minus_IZR; lra).
  assert (Hy : IZR (h / 2 - 50) = IZR (h / 2) - 50)
    by (rewrite minus_IZR; lra).
  rewrite Hx, Hy. reflexivity.
Qed.

Lemma generator_places_enemies_around_home_witness :
  new_game 800 600 1 = Returned arena /\
  exists (gen : EnemyGenerator) (g1 : Game),
    pending arena = [CreateEnemy gen] /\
    create_enemy gen arena = Returned g1 /\
    home g1 = mkHome (IZR (800 - 100)) (IZR (600 / 2)) 20.
Proof.
  split; [ exact new_game_arena | ].
  destruct (generator_places_enemies_around_home 800 600 1 arena new_game_arena)
    as (gen & g1 & H1 & H2 & H3 & _).
  exists gen, g1. repeat split; assumption.
Defined.

Lemma Element_update_kind (el : Element) (g : Game) :
  Element_kind (fst (Element_update el g)) = Element_kind el.
Proof.
  destruct el as [ | | | e]; simpl; try reflexivity.
  - destruct (player g); reflexivity.
  - destruct e as [c | f | r | f]; simpl.
    + destruct (ChasingEnemy_update c g). reflexivity.
    + destruct (FencingEnemy_update f g). reflexivity.
    + destruct (RandomEnemy_update r g). reflexivity.
    + destruct (FrontGateEnermy_update f g). reflexivity.
Qed.

(** An update leaves the delayed calls and the running flag as they are, or
    it ends the session, which cancels the delayed calls. *)
Lemma Player_update_pending (p : Player) (g : Game) :
  (pending (Player_update p g) = pending g /\
   is_running (Player_update p g) = is_running g) \/
  (pending (Player_update p g) = [] /\ is_running (Player_update p g) = false).
Proof.
  unfold Player_update.
  destruct (contains (home g) (Player_x p) (Player_y p)).
  - right. split_ifs; split; reflexivity.
  - left. split_ifs; split; reflexivity.
Qed.

Lemma Enemy_update_pending (e : Enemy) (g : Game) :
  (pending (snd (Enemy_update e g)) = pending g /\
   is_running (snd (Enemy_update e g)) = is_running g) \/
  (pending (snd (Enemy_update e g)) = [] /\
   is_running (snd (Enemy_update e g)) = false).
Proof.
  destruct e as [c | f | r | f]; simpl.
  - unfold ChasingEnemy_update. destruct (player g); [ | left; split; reflexivity ].
    destruct (_ <? _); [ right | left ]; split; reflexivity.
  - unfold FencingEnemy_update. destruct (player g); [ | left; split; reflexivity ].
    destruct (hits_player _ _); [ right; split; reflexivity | left ].
    split_ifs; split; reflexivity.
  - unfold RandomEnemy_update. destruct (player g); [ | left; split; reflexivity ].
    destruct (hits_player _ _); [ right | left ]; split; reflexivity.
  - unfold FrontGateEnermy_update. destruct (player g); [ | left; split; reflexivity ].
    destruct (hits_player _ _); [ right | left ]; split; reflexivity.
Qed.

Lemma Element_update_pending (el : Element) (g : Game) :
  (pending (snd (Element_update el g)) = pending g /\
   is_running (snd (Element_update el g)) = is_running g) \/
  (pending (snd (Element_update el g)) = [] /\
   is_running (snd (Element_update el g)) = false).
Proof.
  destruct el as [ | | | e]; simpl; try (left; split; reflexivity).
  - destruct (player g); simpl;
      [ apply Player_update_pending | left; split; reflexivity ].
  - pose proof (Enemy_update_pending e g) as H.
    destruct (Enemy_update e g). exact H.
Qed.

Lemma update_all_kinds (els : list Element) :
  forall g : Game,
    map Element_kind (fst (update_all els g)) = map Element_kind els /\
    ((pending (snd (update_all els g)) = pending g /\
      is_running (snd (update_all els g)) = is_running g) \/
     (pending (snd (update_all els g)) = [] /\
      is_running (snd (update_all els g)) = false)).
Proof.
  induction els as [ | el rest IH]; intros g; simpl.
  - split; [ reflexivity | left; split; reflexivity ].
  - destruct (is_running g) eqn:Hrun;
      [ | split; [ reflexivity | left; split; [ reflexivity | exact Hrun ] ] ].
    pose proof (Element_update_kind el g) as Hk.
    pose proof (Element_update_pending el g) as Hp.
    destruct (Element_update el g) as [el' g1]. simpl in Hk, Hp.
    destruct (IH g1) as [Hk' Hp'].
    destruct (update_all rest g1) as [rest' g2]. simpl in *.
    split; [ congruence | ].
    destruct Hp as [[Hp1 Hr1] | [Hp1 Hr1]]; destruct Hp' as [[Hp2 Hr2] | [Hp2 Hr2]].
    + left. split; congruence.
    + right. split; assumption.
    + right. split; congruence.
    + right. split; assumption.
Qed.

Lemma advance_tick_kinds (g : Game) :
  map Element_kind (elements (advance_tick g)) = map Element_kind (elements g) /\
  ((pending (advance_tick g) = pending g /\
    is_running (advance_tick g) = is_running g) \/
   (pending (advance_tick g) = [] /\ is_running (advance_tick g) = false)).
Proof.
  unfold advance_tick. destruct (is_running g) eqn:Hrun;
    [ | split; [ reflexivity | left; split; [ reflexivity | exact Hrun ] ] ].
  destruct (update_all_kinds (elements g) g) as [Hk Hp]. rewrite Hrun in Hp.
  destruct (update_all (elements g) g) as [els g']. simpl in *.
  split; assumption.
Qed.

Lemma reachable_shape (g : Game) :
  reachable g ->
  (map Element_kind (elements g) = [KWaypoint; KHome; KPlayer] /\
   ((exists gen, pending g = [CreateEnemy gen] /\ is_running g = true) \/
    (pending g = [] /\ is_running g = false))) \/
  (map Element_kind (elements g)
   = [KWaypoint; KHome; KPlayer; KRandom; KChasing; KFencing; KFrontGate] /\
   pending g = []).
Proof.
  intros Hr. induction Hr as [w h lvl g Hnew | g g' Hr IH Hs].
  - left. unfold new_game in Hnew. simpl in Hnew. injection Hnew as <-.
    split; [ reflexivity | left; eexists; split; reflexivity ].
  - destruct Hs as [g | g x y | g g' gen before after Hpend Hret].
    + destruct (advance_tick_kinds g) as [Hk [[Hp Hrun] | [Hp Hrun]]]; rewrite Hk.
      * rewrite Hp, Hrun. exact IH.
      * destruct IH as [[Hk3 _] | [Hk7 _]].
        -- left. split; [ exact Hk3 | right; split; assumption ].
        -- right. split; assumption.
    + exact IH.
    + destruct IH as [[Hk [[gen0 [Hp _]] | [Hp _]]] | [Hk Hp]].
      * rewrite Hp in Hpend.
        destruct before as [ | c before].
        -- simpl in Hpend. injection Hpend as _ <-.
           destruct (create_enemy_returns gen (set_pending ([] ++ []) g))
             as (r & c & f & fg & g2 & Heq & Hel & _).
           rewrite Heq in Hret. injection Hret as <-.
           right. split.
           ++ rewrite Hel, map_app. simpl elements. rewrite Hk. reflexivity.
           ++ unfold create_enemy in Heq. simpl in Heq. injection Heq as <-.
              reflexivity.
        -- simpl in Hpend. injection Hpend as _ Hnil.
           destruct before; discriminate Hnil.
      * rewrite Hp in Hpend. destruct before; discriminate Hpend.
      * rewrite Hp in Hpend. destruct before; discriminate Hpend.
Qed.

(** A stopped session has no delayed call left, so no transition changes
    its element collection. *)
Lemma no_spawn_after_end (g g' : Game) :
  reachable g -> is_running g = false -> step g g' ->
  elements g' = elements g.
Proof.
  intros Hr Hstop Hs.
  assert (Hp : pending g = []).
  { destruct (reachable_shape g Hr) as [[_ [[gen [_ Hrun]] | [Hp _]]] | [_ Hp]].
    - congruence.
    - exact Hp.
    - exact Hp. }
  destruct Hs as [g | g x y | g g' gen before after Hpend Hret].
  - rewrite advance_tick_stopped by exact Hstop. reflexivity.
  - reflexivity.
  - rewrite Hp in Hpend. destruct before; discriminate Hpend.
Qed.

(** X15.  The generator fires at most once, and never after the session has
    ended.  In every reachable session the element collection holds the
    waypoint, the home and the player, in this order, followed either by no
    enemy, with the delayed [create_enemy] still to come while the session
    runs and cancelled once it has ended, or by exactly one random, one
    chasing, one fencing and one front-gate enemy, in this order, with no
    delayed call left; and once the session has ended no transition changes
    the element collection. *)
Theorem reachable_sessions_hold_one_batch_of_enemies (g : Game) :
  reachable g ->
  ((map Element_kind (elements g) = [KWaypoint; KHome; KPlayer] /\
    ((exists gen, pending g = [CreateEnemy gen] /\ is_running g = true) \/
     (pending g = [] /\ is_running g = false))) \/
   (map Element_kind (elements g)
    = [KWaypoint; KHome; KPlayer; KRandom; KChasing; KFencing; KFrontGate] /\
    pending g = []))
  /\
  (is_running g = false ->
   forall g' : Game, step g g' -> elements g' = elements g).
Proof.
  intros Hr. split.
  - exact (reachable_shape g Hr).
  - intros Hstop g' Hs. exact (no_spawn_after_end g g' Hr Hstop Hs).
Qed.

Lemma reachable_ticks (n : nat) :
  forall g : Game, reachable g -> reachable (ticks n g).
Proof.
  induction n as [ | n IH]; intros g Hr; simpl.
  - exact Hr.
  - apply IH. apply (reach_step g); [ exact Hr | apply step_tick ].
Qed.

(** The session of the walk home is reachable after its win; its delayed
    call is cancelled and no enemy was ever spawned. *)
Lemma arrived_reachable : reachable arrived.
Proof.
  rewrite <- (ticks_scenario_from 129) by lia.
  apply reachable_ticks. unfold scenario.
  apply (reach_step arena); [ | apply step_click ].
  apply (reach_new 800 600 1). exact new_game_arena.
Qed.

Lemma reachable_sessions_hold_one_batch_of_enemies_witness :
  reachable arrived /\ is_running arrived = false /\ pending arrived = [] /\
  (forall g' : Game, step arrived g' -> elements g' = elements arrived) /\
  reachable spawned /\
  ((map Element_kind (elements spawned) = [KWaypoint; KHome; KPlayer] /\
    ((exists gen, pending spawned = [CreateEnemy gen] /\ is_running spawned = true) \/
     (pending spawned = [] /\ is_running spawned = false))) \/
   (map Element_kind (elements spawned)
    = [KWaypoint; KHome; KPlayer; KRandom; KChasing; KFencing; KFrontGate] /\
    pending spawned = [])).
Proof.
  split; [ exact arrived_reachable | ].
  split; [ reflexivity | ]. split; [ reflexivity | ].
  split; [ exact (proj2 (reachable_sessions_hold_one_batch_of_enemies arrived
                           arrived_reachable) eq_refl) | ].
  split; [ exact spawned_reachable | ].
  exact (proj1 (reachable_sessions_hold_one_batch_of_enemies spawned
                  spawned_reachable)).
Defined.

(** ** Signals *)

(** X16.  Every update emits at most one signal, and a signal always stops
    the session: an update either leaves the signals and the running flag as
    they are, or it is the player's and appends Win, or it is an enemy's and
    appends Lose, the enemy staying where it is.  The waypoint's and the
    home's updates never signal, the player's never emits Lose and an
    enemy's never emits Win. *)
Theorem update_emits_at_most_one_signal (el : Element) (g : Game) :
  let g' := snd (Element_update el g) in
  (signals g' = signals g /\ is_running g' = is_running g) \/
  (el = ElPlayer /\ signals g' = signals g ++ [Win] /\ is_running g' = false) \/
  (exists e : Enemy,
     el = ElEnemy e /\ signals g' = signals g ++ [Lose] /\
     is_running g' = false /\ fst (Element_update el g) = el).
Proof.
  cbv zeta. destruct el as [ | | | e]; simpl.
  - left. split; reflexivity.
  - left. split; reflexivity.
  - destruct (player g) as [p | ] eqn:Hp; simpl; [ | left; split; reflexivity ].
    unfold Player_update.
    destruct (contains (home g) (Player_x p) (Player_y p)).
    + right. left. split; [ reflexivity | ]. split_ifs; split; reflexivity.
    + left. split_ifs; split; reflexivity.
  - destruct e as [c | f | r | f]; simpl.
    + unfold ChasingEnemy_update. destruct (player g); [ | left; split; reflexivity ].
      destruct (_ <? _); simpl.
      * right. right. eexists. repeat split.
      * left. split; reflexivity.
    + unfold FencingEnemy_update. destruct (player g); [ | left; split; reflexivity ].
      destruct (hits_player _ _); simpl.
      * right. right. eexists. repeat split.
      * left. split_ifs; split; reflexivity.
    + unfold RandomEnemy_update. destruct (player g); [ | left; split; reflexivity ].
      destruct (hits_player _ _); simpl.
      * right. right. eexists. repeat split.
      * left. split; reflexivity.
    + unfold FrontGateEnermy_update. destruct (player g); [ | left; split; reflexivity ].
      destruct (hits_player _ _); simpl.
      * right. right. eexists. repeat split.
      * left. split; reflexivity.
Qed.

(** ** The hit test under translation *)

(** X17.  [hits_player] depends on the position of the player relative to
    the enemy only: moving the enemy and the player by the same vector does
    not change its result. *)
Theorem hits_player_translation_invariant (b : EnemyBase) (p : Player) (dx dy : R) :
  hits_player (move_to (e_x b + dx) (e_y b + dy) b)
              (Player_set_y (Player_y p + dy) (Player_set_x (Player_x p + dx) p))
  = hits_player b p.
Proof.
  apply eq_iff_eq_true. rewrite !hits_player_spec.
  unfold Player_x, Player_y. simpl. split; intros [Hx Hy]; split; lra.
Qed.

(** ** The walk to the waypoint *)

Lemma Player_update_walks_on (p : Player) (g : Game) :
  is_active (waypoint g) = true ->
  2 * speed p
  <= distance (turtle p) (wp_x (waypoint g)) (wp_y (waypoint g)) ->
  0 < speed p ->
  exists p',
    player (Player_update p g) = Some p' /\ speed p' = speed p /\
    waypoint (Player_update p g) = waypoint g /\
    distance (turtle p') (wp_x (waypoint g)) (wp_y (waypoint g))
    = distance (turtle p) (wp_x (waypoint g)) (wp_y (waypoint g)) - speed p.
Proof.
  intros Hact Hd Hs.
  set (d := distance (turtle p) (wp_x (waypoint g)) (wp_y (waypoint g))) in *.
  set (t2 := forward (speed p)
               (setheading (towards (turtle p) (wp_x (waypoint g)) (wp_y (waypoint g)))
                           (turtle p))).
  assert (Hd2 : distance t2 (wp_x (waypoint g)) (wp_y (waypoint g)) = d - speed p).
  { unfold t2. rewrite distance_after_forward by (fold d; lra).
    fold d. apply Rabs_pos_eq. lra. }
  exists (mkPlayer (speed p) t2).
  split; [ apply (player_after_update p g Hact) | ].
  split; [ reflexivity | ]. split; [ | exact Hd2 ].
  pose proof (Player_update_active p g Hact) as Hup. cbv zeta in Hup.
  fold t2 in Hup. rewrite Hup.
  replace (distance t2 (wp_x (waypoint g)) (wp_y (waypoint g)) <? speed p) with false
    by (symmetry; apply Rltb_false; lra).
  simpl. apply waypoint_after_arrival_test.
Qed.

Lemma run_player_updates (k : nat) :
  forall (g : Game) (p : Player),
    player g = Some p ->
    is_active (waypoint g) = true ->
    0 < speed p ->
    (INR k + 1) * speed p
    <= distance (turtle p) (wp_x (waypoint g)) (wp_y (waypoint g)) ->
    exists p',
      player (run_elements (repeat ElPlayer k) g) = Some p' /\
      speed p' = speed p /\
      waypoint (run_elements (repeat ElPlayer k) g) = waypoint g /\
      distance (turtle p') (wp_x (waypoint g)) (wp_y (waypoint g))
      = distance (turtle p) (wp_x (waypoint g)) (wp_y (waypoint g))
        - INR k * speed p.
Proof.
  induction k as [ | k IH]; intros g p Hp Hact Hs Hd.
  - exists p. simpl. repeat split; try assumption. lra.
  - rewrite S_INR in Hd. pose proof (pos_INR k) as Hk.
    cbn [repeat run_elements Element_update]. rewrite Hp. cbn [snd].
    destruct (Player_update_walks_on p g Hact) as (p1 & Hp1 & Hs1 & Hw1 & Hd1);
      [ nra | exact Hs | ].
    destruct (IH (Player_update p g) p1 Hp1) as (p' & Hp' & Hs' & Hw' & Hd').
    + rewrite Hw1. exact Hact.
    + rewrite Hs1. exact Hs.
    + rewrite Hw1, Hd1, Hs1. nra.
    + exists p'. rewrite Hw1 in Hw', Hd'. rewrite Hs1 in Hs', Hd'.
      rewrite Hd1 in Hd'. rewrite S_INR.
      repeat split; try assumption. rewrite Hd'. ring.
Qed.

(** X18.  The walk to the waypoint is a straight walk in steps of [speed]:
    as long as [(k + 1) * speed] is less than the distance [d] at the start,
    [k] updates of the player leave it at distance [d - k * speed] with the
    waypoint still active and unmoved; if moreover [d < (k + 2) * speed],
    the next update is the one that deactivates the waypoint, leaving the
    player at distance [d - (k + 1) * speed] from it, more than nothing and
    less than one step.  Nothing is said of a start at a distance of exactly
    [(k + 1) * speed], where the comparison of the code is between equal
    numbers. *)
Theorem player_walks_to_waypoint (k : nat) (g : Game) (p : Player) :
  player g = Some p ->
  is_active (waypoint g) = true ->
  0 < speed p ->
  let wx := wp_x (waypoint g) in
  let wy := wp_y (waypoint g) in
  let d := distance (turtle p) wx wy in
  (INR k + 1) * speed p < d ->
  let g' := run_elements (repeat ElPlayer k) g in
  exists p',
    player g' = Some p' /\ speed p' = speed p /\ waypoint g' = waypoint g /\
    distance (turtle p') wx wy = d - INR k * speed p /\
    (d < (INR k + 2) * speed p ->
     exists p'',
       player (Player_update p' g') = Some p'' /\
       is_active (waypoint (Player_update p' g')) = false /\
       distance (turtle p'') wx wy = d - (INR k + 1) * speed p).
Proof.
  intros Hp Hact Hs wx wy d Hd g'.
  destruct (run_player_updates k g p Hp Hact Hs (Rlt_le _ _ Hd))
    as (p' & Hp' & Hs' & Hw' & Hd').
  fold g' in Hp', Hw'. fold wx wy d in Hd'.
  exists p'. repeat split; try assumption.
  intros Hlast.
  assert (Hact' : is_active (waypoint g') = true) by (rewrite Hw'; exact Hact).
  assert (Hpos : 0 < distance (turtle p') (wp_x (waypoint g')) (wp_y (waypoint g'))).
  { rewrite Hw'. fold wx wy. rewrite Hd'. nra. }
  destruct (player_distance_after_move_aux p' g' Hact' Hpos) as (p'' & Hp'' & Hd'').
  exists p''. split; [ exact Hp'' | ].
  rewrite Hw' in Hd''. fold wx wy in Hd''. rewrite Hd', Hs' in Hd''.
  split.
  - apply waypoint_deactivated_iff_before; [ exact Hact' | ].
    rewrite Hw'. fold wx wy. rewrite Hd', Hs'. nra.
  - rewrite Hd''. rewrite Rabs_pos_eq by nra. ring.
Qed.

Lemma scenario_distance :
  distance (turtle (mkPlayer 5 (mkTurtle 50 300 0)))
           (wp_x (waypoint scenario)) (wp_y (waypoint scenario)) = 650.
Proof.
  rewrite distance_level by reflexivity. simpl. rewrite Rabs_pos_eq; lra.
Qed.

Lemma player_walks_to_waypoint_witness :
  player scenario = Some (mkPlayer 5 (mkTurtle 50 300 0)) /\
  is_active (waypoint scenario) = true /\
  exists p',
    player (run_elements (repeat ElPlayer 2) scenario) = Some p' /\
    speed p' = 5 /\ waypoint (run_elements (repeat ElPlayer 2) scenario)
                    = waypoint scenario.
Proof.
  split; [ reflexivity | split; [ reflexivity | ] ].
  destruct (player_walks_to_waypoint 2 scenario (mkPlayer 5 (mkTurtle 50 300 0))
              eq_refl eq_refl) as (p' & H1 & H2 & H3 & _).
  - simpl. lra.
  - rewrite scenario_distance. simpl. lra.
  - exists p'. repeat split; assumption.
Defined.
